(** * Batch image resizing for an attachment column (src/App.tsx)

    A shallow embedding of the two functions of [src/App.tsx] that carry
    the behaviour of the plugin:

    - [processImageWithPixel]: centre crop, scale to the target pixel
      size, white background, JPEG at quality 0.9;
    - [handleConvert]: the batch loop over the records of the active
      table, with its per-attachment and per-record [try]/[catch], the
      three counters, the progress indicator and the log;

    and of what surrounds them in the component: the effect that loads
    the table and selects the default fields ([fetchData]), and what the
    form shows of the state (the button, the status line, the progress
    bar and the log).

    JavaScript numbers are IEEE 754 binary64 values and are modelled by
    the primitive floats of the kernel; strings are byte strings (the
    UTF-8 image of the source text); effects are threaded explicitly
    through a small state-and-exception monad; the host table, the
    network and the browser's image codec are an explicit [World] of
    oracles, each of which sees the history of calls made so far. *)

From Stdlib Require Import ZArith List String Ascii Bool Lia.
From Stdlib Require Import Floats Uint63 QArith DecimalString Lqa.
Import ListNotations.

Close Scope Q_scope.
Local Open Scope string_scope.
Local Open Scope list_scope.

(* ================================================================== *)
(** * 1. JavaScript numbers *)
(* ================================================================== *)

Module Number.

(** [ToBoolean] on a number: [NaN], [+0] and [-0] are falsy. *)
Definition falsy (x : float) : bool :=
  (PrimFloat.is_nan x || PrimFloat.eqb x 0%float)%bool.

(** [x || d] on numbers. *)
Definition or_else (x d : float) : float := if falsy x then d else x.

(** An integer held by the platform ([img.width], an index, a length)
    read as a number; exact below 2^53. *)
Definition of_Z (z : Z) : float := PrimFloat.of_uint63 (Uint63.of_Z z).

(** [sign(x) * floor(abs(x))], and 0 for [NaN] and the infinities: the
    integer part that the conversions of numbers to integers start from. *)
Definition truncate (x : float) : Z :=
  match Prim2SF x with
  | S754_finite s m e =>
      let mag := if (0 <=? e)%Z then (Z.pos m * 2 ^ e)%Z
                 else (Z.pos m / 2 ^ (- e))%Z in
      if s then (- mag)%Z else mag
  | _ => 0%Z
  end.

(** Whether a number is finite with no fractional part. *)
Definition is_integral (x : float) : bool :=
  match Prim2SF x with
  | S754_zero _ => true
  | S754_finite _ m e =>
      if (0 <=? e)%Z then true else (Z.pos m mod 2 ^ (- e) =? 0)%Z
  | _ => false
  end.

(** The integer a number denotes, when it is finite and integral. *)
Definition to_integer (x : float) : option Z :=
  if is_integral x then Some (truncate x) else None.

(** The conversion of a number to a Web IDL [unsigned long]. *)
Definition toUint32 (x : float) : Z := (truncate x mod 2 ^ 32)%Z.

Definition string_of_Z (z : Z) : string :=
  NilZero.string_of_int (Z.to_int z).

(** [Number::toString] as a template literal applies it.  ECMAScript
    prints the shortest decimal digits that read back as the number,
    followed by zeros.  For an integer of magnitude below 2^53 these are
    the digits of the integer itself, since every integer of that range
    is a number of its own; they are printed here, as are [NaN] and the
    infinities.  From 2^53 on the shortest digits are in general not
    the digits of the integer (2^69 is printed 590295810358705700000):
    the printing of those numbers, and of the numbers with a fractional
    part, is the platform's and is the parameter [other]. *)
Definition toString (other : float -> string) (x : float) : string :=
  if PrimFloat.is_nan x then "NaN"
  else if PrimFloat.eqb x infinity then "Infinity"
  else if PrimFloat.eqb x neg_infinity then "-Infinity"
  else match to_integer x with
       | Some z =>
           if (Z.abs z <? 2 ^ 53)%Z then string_of_Z z else other x
       | None => other x
       end.

(** Counters, indices and lengths: non-negative integers. *)
Definition string_of_nat (n : nat) : string := string_of_Z (Z.of_nat n).

End Number.

(* ================================================================== *)
(** * 2. The crop rectangle of [processImageWithPixel] (lines 26-45) *)
(* ================================================================== *)

(** The arithmetic the crop computation uses.  The program runs it on
    binary64 numbers ([Arith_float]); the same text read over the
    rationals ([Arith_Q]) is what its formulas denote without rounding. *)
Class Arith (N : Type) : Type := {
  n_zero : N;
  n_two : N;
  n_sub : N -> N -> N;
  n_mul : N -> N -> N;
  n_div : N -> N -> N;
  n_gt : N -> N -> bool
}.

#[export] Instance Arith_float : Arith float := {
  n_zero := 0%float;
  n_two := 2%float;
  n_sub := PrimFloat.sub;
  n_mul := PrimFloat.mul;
  n_div := PrimFloat.div;
  n_gt := fun x y => PrimFloat.ltb y x
}.

#[export] Instance Arith_Q : Arith Q := {
  n_zero := 0%Q;
  n_two := 2%Q;
  n_sub := Qminus;
  n_mul := Qmult;
  n_div := Qdiv;
  n_gt := fun x y => match Qcompare x y with Gt => true | _ => false end
}.

Record Rect (N : Type) : Type := mkRect {
  sourceX : N;
  sourceY : N;
  sourceWidth : N;
  sourceHeight : N
}.
Arguments mkRect {N}.
Arguments sourceX {N}.
Arguments sourceY {N}.
Arguments sourceWidth {N}.
Arguments sourceHeight {N}.

Definition targetRatio {N} `{Arith N} (targetWidth targetHeight : N) : N :=
  n_div targetWidth targetHeight.

Definition currentRatio {N} `{Arith N} (imgWidth imgHeight : N) : N :=
  n_div imgWidth imgHeight.

(** Lines 31-45. *)
Definition cropRect {N} `{Arith N}
    (imgWidth imgHeight targetWidth targetHeight : N) : Rect N :=
  let tr := targetRatio targetWidth targetHeight in
  let cr := currentRatio imgWidth imgHeight in
  if n_gt cr tr then
    let sh := imgHeight in
    let sw := n_mul imgHeight tr in
    {| sourceX := n_div (n_sub imgWidth sw) n_two;
       sourceY := n_zero;
       sourceWidth := sw;
       sourceHeight := sh |}
  else
    let sw := imgWidth in
    let sh := n_div imgWidth tr in
    {| sourceX := n_zero;
       sourceY := n_div (n_sub imgHeight sh) n_two;
       sourceWidth := sw;
       sourceHeight := sh |}.

(* ================================================================== *)
(** * 3. Strings: file names and the image test (lines 183-184, 202-205) *)
(* ================================================================== *)

Module JsString.

(** [s.includes(c)] for a one-character needle. *)
Fixpoint includes (c : ascii) (s : string) : bool :=
  match s with
  | EmptyString => false
  | String a r => (Ascii.eqb a c || includes c r)%bool
  end.

(** [s.lastIndexOf(c)]: the index of the last occurrence, or -1. *)
Fixpoint lastIndexOf (c : ascii) (s : string) : Z :=
  match s with
  | EmptyString => (-1)%Z
  | String a r =>
      let k := lastIndexOf c r in
      if (0 <=? k)%Z then (k + 1)%Z
      else if Ascii.eqb a c then 0%Z else (-1)%Z
  end.

(** [s.substring(0, e)]: a negative end counts as 0, an end past the
    string as its length. *)
Definition substring0 (e : Z) (s : string) : string :=
  String.substring 0 (Z.to_nat e) s.

(** [a || d] on strings: the empty string is falsy. *)
Definition or_else (a d : string) : string :=
  match a with EmptyString => d | _ => a end.

(** [Canonicalize] of a non-unicode, ignore-case regular expression on
    one code unit: upper case, which moves only the letters a-z within
    the ASCII range and never maps a unit outside it into it. *)
Definition upper (c : ascii) : ascii :=
  let n := nat_of_ascii c in
  if ((97 <=? n) && (n <=? 122))%nat%bool then ascii_of_nat (n - 32) else c.

Fixpoint upcase (s : string) : string :=
  match s with
  | EmptyString => EmptyString
  | String a r => String (upper a) (upcase r)
  end.

End JsString.

(** The fragment of regular expressions the source uses, with a
    backtracking matcher in continuation-passing style. *)
Module RegExp.

Inductive t : Type :=
| Empty
| Char (c : ascii)
| Seq (r1 r2 : t)
| Alt (r1 r2 : t)
| End_.                          (* the assertion $ (no m flag) *)

Fixpoint lit (w : string) : t :=
  match w with
  | EmptyString => Empty
  | String c r => Seq (Char c) (lit r)
  end.

Definition canonicalize (ignoreCase : bool) (c : ascii) : ascii :=
  if ignoreCase then JsString.upper c else c.

(** [matches i r s k]: [r] matches a prefix of [s] and [k] accepts
    what is left. *)
Fixpoint matches (i : bool) (r : t) (s : string) (k : string -> bool) : bool :=
  match r with
  | Empty => k s
  | Char c =>
      match s with
      | String a s' =>
          if Ascii.eqb (canonicalize i a) (canonicalize i c) then k s' else false
      | EmptyString => false
      end
  | Seq r1 r2 => matches i r1 s (fun s' => matches i r2 s' k)
  | Alt r1 r2 => (matches i r1 s k || matches i r2 s k)%bool
  | End_ => match s with EmptyString => k s | String _ _ => false end
  end.

(** [r.test(s)] for a regular expression without the g and y flags:
    a match starting at some index of [s]. *)
Fixpoint test (i : bool) (r : t) (s : string) : bool :=
  (matches i r s (fun _ => true)
   || match s with
      | EmptyString => false
      | String _ s' => test i r s'
      end)%bool.

End RegExp.

(** [/\.(jpg|jpeg|png|webp|gif|bmp)$/i] (line 184). *)
Definition imageRegExp : RegExp.t :=
  RegExp.Seq (RegExp.Char ".")
    (RegExp.Seq
       (RegExp.Alt (RegExp.lit "jpg")
          (RegExp.Alt (RegExp.lit "jpeg")
             (RegExp.Alt (RegExp.lit "png")
                (RegExp.Alt (RegExp.lit "webp")
                   (RegExp.Alt (RegExp.lit "gif") (RegExp.lit "bmp"))))))
       RegExp.End_).

Definition isImage (fileName : string) : bool :=
  RegExp.test true imageRegExp fileName.

(** Lines 202-204. *)
Definition baseName (fileName : string) : string :=
  if JsString.includes "." fileName
  then JsString.substring0 (JsString.lastIndexOf "." fileName) fileName
  else fileName.

(** Line 205; [str] is the conversion of a number in a template literal. *)
Definition newFileName (str : float -> string)
    (fileName : string) (targetWidth targetHeight : float) : string :=
  baseName fileName ++ "_" ++ str targetWidth ++ "x" ++ str targetHeight ++ ".jpg".


(* ================================================================== *)
(** * 4. Browser objects: blobs, canvas, images, files *)
(* ================================================================== *)

(** A blob is either a downloaded body or what [canvas.toBlob] made of
    a canvas: its pixel size, what was painted on it, in order, and the
    encoding that was asked for. *)
Inductive Blob : Type :=
| Bytes (payload : string)
| CanvasBlob (width height : Z) (painted : list PaintOp)
             (type : string) (quality : float)
with PaintOp : Type :=
| FillRect (fillStyle : string) (x y w h : float)
| DrawImage (src : Blob) (imgWidth imgHeight : Z)
            (sx sy sw sh dx dy dw dh : float).

Module HTMLImage.
Record t : Type := mk { src : Blob; width : Z; height : Z }.
End HTMLImage.

Module Canvas.

Record t : Type := mk {
  width : Z;
  height : Z;
  fillStyle : string;
  painted : list PaintOp
}.

(** [document.createElement('canvas')]. *)
Definition create : t :=
  {| width := 300; height := 150; fillStyle := "#000000"; painted := [] |}.

(** The [width] and [height] attributes are [unsigned long] and reflect
    a content attribute limited to non-negative numbers: the number
    assigned is converted, and a result above 2^31 - 1 is replaced by
    the default. *)
Definition reflected (default : Z) (v : float) : Z :=
  let n := Number.toUint32 v in
  if (n <=? 2147483647)%Z then n else default.

(** Assigning a dimension also clears the bitmap and the drawing state. *)
Definition set_width (v : float) (c : t) : t :=
  {| width := reflected 300 v; height := height c;
     fillStyle := "#000000"; painted := [] |}.

Definition set_height (v : float) (c : t) : t :=
  {| width := width c; height := reflected 150 v;
     fillStyle := "#000000"; painted := [] |}.

Definition set_fillStyle (v : string) (c : t) : t :=
  {| width := width c; height := height c; fillStyle := v;
     painted := painted c |}.

Definition fillRect (x y w h : float) (c : t) : t :=
  {| width := width c; height := height c; fillStyle := fillStyle c;
     painted := painted c ++ [FillRect (fillStyle c) x y w h] |}.

Definition drawImage (img : HTMLImage.t) (sx sy sw sh dx dy dw dh : float)
    (c : t) : t :=
  {| width := width c; height := height c; fillStyle := fillStyle c;
     painted := painted c ++
       [DrawImage (HTMLImage.src img) (HTMLImage.width img) (HTMLImage.height img)
          sx sy sw sh dx dy dw dh] |}.

(** What [canvas.toBlob(cb, type, quality)] hands to its callback when
    the encoder succeeds. *)
Definition toBlob (type : string) (quality : float) (c : t) : Blob :=
  CanvasBlob (width c) (height c) (painted c) type quality.

End Canvas.

Module File.
Record t : Type := mk { bits : list Blob; name : string; type : string }.
End File.

Module Attachment.
Record t : Type := mk { token : string; name : string }.
End Attachment.

(** The outcome of an awaited call: a value, or an exception with its
    [message]. *)
Inductive result (A : Type) : Type :=
| Val (a : A)
| Exn (message : string).
Arguments Val {A}.
Arguments Exn {A}.

Module Response.
Record t : Type := mk { ok : bool; statusText : string; blob : result Blob }.
End Response.

(** Lines 22-52: the canvas after the image was drawn. *)
Definition drawToCanvas (img : HTMLImage.t) (targetWidth targetHeight : float)
  : Canvas.t :=
  let canvas := Canvas.create in
  let canvas := Canvas.set_width targetWidth canvas in
  let canvas := Canvas.set_height targetHeight canvas in
  let imgWidth := Number.of_Z (HTMLImage.width img) in
  let imgHeight := Number.of_Z (HTMLImage.height img) in
  let r := cropRect imgWidth imgHeight targetWidth targetHeight in
  let canvas := Canvas.set_fillStyle "#FFFFFF" canvas in
  let canvas := Canvas.fillRect 0 0 targetWidth targetHeight canvas in
  Canvas.drawImage img
    (sourceX r) (sourceY r) (sourceWidth r) (sourceHeight r)
    0 0 targetWidth targetHeight canvas.

(** The quality argument of line 60: the binary64 number the literal
    [0.9] denotes. *)
Definition jpegQuality : float := 0x1.ccccccccccccdp-1%float.

(* ================================================================== *)
(** * 5. The component state, the world and the monad *)
(* ================================================================== *)

Inductive LogType : Type := info | success | error.

Record LogEntry : Type := mkLog { msg : string; type : LogType }.

Record Progress : Type := mkProgress { current : nat; total : nat }.

(** The [useState] cells of [App] that [handleConvert] reads or writes. *)
Record UI : Type := mkUI {
  isConverting : bool;
  statusMsg : string;
  progress : Progress;
  logs : list LogEntry;
  selectedSourceFieldId : string;
  selectedTargetFieldId : string;
  targetWidth : float;
  targetHeight : float
}.

(** The [let] variables of [handleConvert] (lines 151-153, 171). *)
Record Locals : Type := mkLocals {
  successCount : nat;
  skipCount : nat;
  failCount : nat;
  processedFiles : list File.t
}.

(** What the run does that can be seen from outside, in order. *)
Inductive Event : Type :=
| EvGetActiveTable
| EvGetRecordIdList
| EvGetField (fieldId : string)
| EvGetValue (fieldId recordId : string)
| EvGetCellAttachmentUrls (tokens : list string) (fieldId recordId : string)
| EvFetch (url : option string)
| EvTransform (blob : Blob) (targetWidth targetHeight : float)
| EvSetValue (fieldId recordId : string) (files : list File.t)
| EvSetProgress (p : Progress).

(** The collaborators of the run.  Every oracle is given the events so
    far, so its answers may change from call to call. *)
Record World : Type := mkWorld {
  getActiveTable : list Event -> result unit;
  getRecordIdList : list Event -> result (list string);
  getField : list Event -> string -> result unit;
  (** [None]: a value that is absent or not an array. *)
  getValue : list Event -> string -> string -> result (option (list Attachment.t));
  getCellAttachmentUrls :
    list Event -> list string -> string -> string -> result (list string);
  fetch : list Event -> option string -> result Response.t;
  setValue : list Event -> string -> string -> list File.t -> result bool;
  (** [img.onload] with the natural size, or [img.onerror]. *)
  decodeImage : list Event -> Blob -> option (Z * Z);
  getContext2d : list Event -> bool;
  (** Whether [toBlob] calls back with a blob rather than [null]. *)
  encodes : list Event -> Blob -> bool;
  (** The platform's printing of the numbers [Number.toString] leaves. *)
  numberToString : float -> string
}.

Record Machine : Type := mkMachine {
  ui : UI;
  locals : Locals;
  trace : list Event
}.

Definition M (A : Type) : Type := Machine -> result A * Machine.

Definition ret {A} (a : A) : M A := fun m => (Val a, m).

Definition bind {A B} (c : M A) (f : A -> M B) : M B :=
  fun m =>
    match c m with
    | (Val a, m') => f a m'
    | (Exn e, m') => (Exn e, m')
    end.

Definition throw {A} (message : string) : M A := fun m => (Exn message, m).

(** [try { body } catch (e) { handler(e.message) }]: the handler runs in
    the state the body left. *)
Definition try_catch {A} (body : M A) (handler : string -> M A) : M A :=
  fun m =>
    match body m with
    | (Val a, m') => (Val a, m')
    | (Exn e, m') => handler e m'
    end.

(** [try { body } finally { fin }]. *)
Definition try_finally {A} (body : M A) (fin : M unit) : M A :=
  fun m =>
    match body m with
    | (r, m') =>
        match fin m' with
        | (Val _, m'') => (r, m'')
        | (Exn e, m'') => (Exn e, m'')
        end
    end.

Notation "x <- c1 ;; c2" := (bind c1 (fun x => c2))
  (at level 61, c1 at next level, right associativity).
Notation "c1 ;; c2" := (bind c1 (fun _ => c2))
  (at level 61, right associativity).

Definition history : M (list Event) := fun m => (Val (trace m), m).

Definition getUI : M UI := fun m => (Val (ui m), m).

Definition getLocals : M Locals := fun m => (Val (locals m), m).

Definition modifyUI (f : UI -> UI) : M unit :=
  fun m => (Val tt, mkMachine (f (ui m)) (locals m) (trace m)).

Definition modifyLocals (f : Locals -> Locals) : M unit :=
  fun m => (Val tt, mkMachine (ui m) (f (locals m)) (trace m)).

Definition emit (e : Event) : M unit :=
  fun m => (Val tt, mkMachine (ui m) (locals m) (trace m ++ [e])).

(** An awaited call: the oracle answers from the history, the call is
    recorded, and the answer is returned or thrown. *)
Definition call {A} (e : Event) (oracle : list Event -> result A) : M A :=
  fun m => (oracle (trace m), mkMachine (ui m) (locals m) (trace m ++ [e])).

Definition lift {A} (r : result A) : M A := fun m => (r, m).

(** ** State setters *)

Definition withIsConverting (b : bool) (u : UI) : UI :=
  mkUI b (statusMsg u) (progress u) (logs u)
    (selectedSourceFieldId u) (selectedTargetFieldId u)
    (targetWidth u) (targetHeight u).

Definition setIsConverting (b : bool) : M unit := modifyUI (withIsConverting b).

Definition withStatusMsg (s : string) (u : UI) : UI :=
  mkUI (isConverting u) s (progress u) (logs u)
    (selectedSourceFieldId u) (selectedTargetFieldId u)
    (targetWidth u) (targetHeight u).

Definition setStatusMsg (s : string) : M unit := modifyUI (withStatusMsg s).

Definition with_logs (f : list LogEntry -> list LogEntry) (u : UI) : UI :=
  mkUI (isConverting u) (statusMsg u) (progress u) (f (logs u))
    (selectedSourceFieldId u) (selectedTargetFieldId u)
    (targetWidth u) (targetHeight u).

Definition setLogs (l : list LogEntry) : M unit :=
  modifyUI (with_logs (fun _ => l)).

Definition withProgress (p : Progress) (u : UI) : UI :=
  mkUI (isConverting u) (statusMsg u) p (logs u)
    (selectedSourceFieldId u) (selectedTargetFieldId u)
    (targetWidth u) (targetHeight u).

(** Every update of the progress cell is also recorded in the trace. *)
Definition setProgress (p : Progress) : M unit :=
  modifyUI (withProgress p) ;;
  emit (EvSetProgress p).

(** Lines 123-125: newest first, the 50 most recent kept. *)
Definition pushLog (entry : LogEntry) (u : UI) : UI :=
  with_logs (fun prev => firstn 50 (entry :: prev)) u.

Definition addLog (msg : string) (type : LogType) : M unit :=
  modifyUI (pushLog (mkLog msg type)).

Definition setCounts (s k f : nat) : M unit :=
  modifyLocals (fun l => mkLocals s k f (processedFiles l)).

(** [successCount++], [skipCount++], [failCount++]. *)
Definition countSuccess (l : Locals) : Locals :=
  mkLocals (S (successCount l)) (skipCount l) (failCount l) (processedFiles l).

Definition countSkip (l : Locals) : Locals :=
  mkLocals (successCount l) (S (skipCount l)) (failCount l) (processedFiles l).

Definition countFail (l : Locals) : Locals :=
  mkLocals (successCount l) (skipCount l) (S (failCount l)) (processedFiles l).

Definition incrSuccess : M unit := modifyLocals countSuccess.

Definition incrSkip : M unit := modifyLocals countSkip.

Definition incrFail : M unit := modifyLocals countFail.

Definition withProcessedFiles (fs : list File.t) (l : Locals) : Locals :=
  mkLocals (successCount l) (skipCount l) (failCount l) fs.

Definition setProcessedFiles (fs : list File.t) : M unit :=
  modifyLocals (withProcessedFiles fs).

(** [processedFiles.push(f)]. *)
Definition pushProcessedFile (f : File.t) : M unit :=
  modifyLocals (fun l => withProcessedFiles (processedFiles l ++ [f]) l).

(* ================================================================== *)
(** * 6. [processImageWithPixel] (lines 8-70) *)
(* ================================================================== *)

Definition processImageWithPixel (w : World)
    (blob : Blob) (targetWidth targetHeight : float) : M Blob :=
  h <- history ;;
  emit (EvTransform blob targetWidth targetHeight) ;;
  match decodeImage w h blob with
  | None => throw "图片加载失败，无法处理"
  | Some (width, height) =>
      if getContext2d w h then
        let img := HTMLImage.mk blob width height in
        let canvas := drawToCanvas img targetWidth targetHeight in
        let result := Canvas.toBlob "image/jpeg" jpegQuality canvas in
        if encodes w h result then ret result
        else throw "Canvas 转换失败"
      else throw "无法获取 canvas context"
  end.

(* ================================================================== *)
(** * 7. [handleConvert] (lines 127-245) *)
(* ================================================================== *)

Definition str (w : World) : float -> string :=
  Number.toString (numberToString w).

(** The effective name of an attachment (line 183). *)
Definition fileNameOf (attachment : Attachment.t) : string :=
  JsString.or_else (Attachment.name attachment) "image.jpg".

(** The body of the inner loop (lines 178-211), for the attachment at
    index [j] and [urls[j]]. *)
Definition processAttachment (w : World) (targetWidth targetHeight : float)
    (attachment : Attachment.t) (url : option string) : M unit :=
  try_catch
    (let fileName := fileNameOf attachment in
     if negb (isImage fileName) then
       addLog ("跳过非图片文件: " ++ fileName) info
     else
       addLog ("正在下载附件: " ++ fileName) info ;;
       response <- call (EvFetch url) (fun h => fetch w h url) ;;
       (if negb (Response.ok response)
        then throw ("下载失败: " ++ Response.statusText response)
        else ret tt) ;;
       blob <- lift (Response.blob response) ;;
       addLog ("正在调整像素: " ++ fileName) info ;;
       blob <- processImageWithPixel w blob targetWidth targetHeight ;;
       let newName := newFileName (str w) fileName targetWidth targetHeight in
       pushProcessedFile (File.mk [blob] newName "image/jpeg") ;;
       addLog ("已处理完成: " ++ newName) success)
    (fun message =>
       addLog ("处理附件失败: " ++ Attachment.name attachment ++ " - " ++ message)
         error).

(** The inner loop (lines 177-212) from index [j] on. *)
Fixpoint attachmentsLoop (w : World) (targetWidth targetHeight : float)
    (urls : list string) (j : nat) (rest : list Attachment.t) : M unit :=
  match rest with
  | [] => ret tt
  | attachment :: rest' =>
      processAttachment w targetWidth targetHeight attachment (nth_error urls j) ;;
      attachmentsLoop w targetWidth targetHeight urls (S j) rest'
  end.

Definition row (i : nat) : string :=
  "第 " ++ Number.string_of_nat (i + 1) ++ " 行: ".

(** Lines 214-228: what becomes of the record once its attachments
    have been gone through. *)
Definition submitProcessedFiles (w : World) (u : UI) (i : nat)
    (recordId : string) : M unit :=
  l <- getLocals ;;
  let files := processedFiles l in
  if (0 <? List.length files)%nat then
    addLog ("正在上传 " ++ Number.string_of_nat (List.length files)
              ++ " 个文件到目标字段...") info ;;
    res <-
      call (EvSetValue (selectedTargetFieldId u) recordId files)
           (fun h => setValue w h (selectedTargetFieldId u) recordId files) ;;
    if (res : bool) then
      addLog (row i ++ "处理成功") success ;;
      incrSuccess
    else
      addLog (row i ++ "设置失败 (SDK 返回 false)") error ;;
      incrFail
  else
    addLog (row i ++ "无有效图片可处理") info ;;
    incrSkip.

(** Lines 160-228: the body of the per-record [try]. *)
Definition recordBody (w : World) (u : UI) (i : nat) (recordId : string)
  : M unit :=
  attachmentList <-
    call (EvGetValue (selectedSourceFieldId u) recordId)
         (fun h => getValue w h (selectedSourceFieldId u) recordId) ;;
  match attachmentList with
  | None | Some [] =>
      addLog (row i ++ "未找到附件") info ;;
      incrSkip
  | Some attachmentList =>
      addLog (row i ++ "正在处理 "
                ++ Number.string_of_nat (List.length attachmentList)
                ++ " 个附件...") info ;;
      setProcessedFiles [] ;;
      let tokens := map Attachment.token attachmentList in
      urls <-
        call (EvGetCellAttachmentUrls tokens (selectedSourceFieldId u) recordId)
             (fun h => getCellAttachmentUrls w h tokens
                         (selectedSourceFieldId u) recordId) ;;
      attachmentsLoop w (targetWidth u) (targetHeight u) urls 0 attachmentList ;;
      submitProcessedFiles w u i recordId
  end.

(** The body of the outer loop (lines 156-234) for [recordIds[i]]. *)
Definition processRecord (w : World) (u : UI) (total i : nat)
    (recordId : string) : M unit :=
  setProgress (mkProgress (i + 1) total) ;;
  try_catch
    (recordBody w u i recordId)
    (fun message =>
       addLog (row i ++ "失败 - " ++ message) error ;;
       incrFail).

(** The outer loop (lines 155-235) from index [i] on. *)
Fixpoint recordsLoop (w : World) (u : UI) (total i : nat)
    (rest : list string) : M unit :=
  match rest with
  | [] => ret tt
  | recordId :: rest' =>
      processRecord w u total i recordId ;;
      recordsLoop w u total (S i) rest'
  end.

Definition summary (l : Locals) : string :=
  "处理完成！成功: " ++ Number.string_of_nat (successCount l)
    ++ ", 跳过: " ++ Number.string_of_nat (skipCount l)
    ++ ", 失败: " ++ Number.string_of_nat (failCount l).

Definition isEmpty (s : string) : bool :=
  match s with EmptyString => true | _ => false end.

(** Lines 138-237: the body of the outer [try]. *)
Definition convertBody (w : World) (u : UI) : M unit :=
  call EvGetActiveTable (getActiveTable w) ;;
  recordIds <- call EvGetRecordIdList (getRecordIdList w) ;;
  let total := List.length recordIds in
  (if (total =? 0)%nat then throw "当前表格没有记录" else ret tt) ;;
  setProgress (mkProgress 0 total) ;;
  call (EvGetField (selectedSourceFieldId u))
       (fun h => getField w h (selectedSourceFieldId u)) ;;
  call (EvGetField (selectedTargetFieldId u))
       (fun h => getField w h (selectedTargetFieldId u)) ;;
  setCounts 0 0 0 ;;
  recordsLoop w u total 0 recordIds ;;
  l <- getLocals ;;
  setStatusMsg (summary l).

(** The closure [handleConvert] reads the state cells as they were when
    the button was rendered: [u], the state at the click. *)
Definition handleConvert (w : World) : M unit :=
  u <- getUI ;;
  if (isEmpty (selectedSourceFieldId u) || isEmpty (selectedTargetFieldId u))%bool
  then setStatusMsg "请先选择源字段和目标字段"
  else
    setIsConverting true ;;
    setStatusMsg "正在初始化处理..." ;;
    setLogs [] ;;
    try_finally
      (try_catch
         (convertBody w u)
         (fun message =>
            setStatusMsg ("失败: " ++ JsString.or_else message "未知错误")))
      (setIsConverting false ;;
       setProgress (mkProgress 0 0)).

(* ================================================================== *)
(** * 8. The form (lines 72-121, 263-314) *)
(* ================================================================== *)

(** What the user and the host do to the component.  A change of a
    number input carries [Number(e.target.value)]. *)
Inductive Action : Type :=
| FetchData (attachFields : list string)
| ChangeSourceField (value : string)
| ChangeTargetField (value : string)
| ChangeTargetWidth (value : float)
| ChangeTargetHeight (value : float)
| ClickConvert.

Definition initialUI : UI :=
  {| isConverting := false;
     statusMsg := "";
     progress := mkProgress 0 0;
     logs := [];
     selectedSourceFieldId := "";
     selectedTargetFieldId := "";
     targetWidth := 800%float;
     targetHeight := 800%float |}.

Definition initialMachine : Machine :=
  mkMachine initialUI (mkLocals 0 0 0 []) [].

Definition setSelectedSourceFieldId (v : string) (u : UI) : UI :=
  mkUI (isConverting u) (statusMsg u) (progress u) (logs u)
    v (selectedTargetFieldId u) (targetWidth u) (targetHeight u).

Definition setSelectedTargetFieldId (v : string) (u : UI) : UI :=
  mkUI (isConverting u) (statusMsg u) (progress u) (logs u)
    (selectedSourceFieldId u) v (targetWidth u) (targetHeight u).

Definition setTargetWidth (v : float) (u : UI) : UI :=
  mkUI (isConverting u) (statusMsg u) (progress u) (logs u)
    (selectedSourceFieldId u) (selectedTargetFieldId u) v (targetHeight u).

Definition setTargetHeight (v : float) (u : UI) : UI :=
  mkUI (isConverting u) (statusMsg u) (progress u) (logs u)
    (selectedSourceFieldId u) (selectedTargetFieldId u) (targetWidth u) v.

(** Lines 103-106. *)
Definition fetchData (attachFields : list string) (u : UI) : UI :=
  match attachFields with
  | [] => u
  | first :: _ =>
      let u1 := if isEmpty (selectedSourceFieldId u)
                then setSelectedSourceFieldId first u else u in
      if isEmpty (selectedTargetFieldId u)
      then setSelectedTargetFieldId first u1 else u1
  end.

Definition dispatch (w : World) (a : Action) (m : Machine) : Machine :=
  let onUI f := mkMachine (f (ui m)) (locals m) (trace m) in
  match a with
  | FetchData fs => onUI (fetchData fs)
  | ChangeSourceField v => onUI (setSelectedSourceFieldId v)
  | ChangeTargetField v => onUI (setSelectedTargetFieldId v)
  | ChangeTargetWidth v => onUI (setTargetWidth (Number.or_else v 1%float))
  | ChangeTargetHeight v => onUI (setTargetHeight (Number.or_else v 1%float))
  | ClickConvert => snd (handleConvert w m)
  end.

Definition session (w : World) (actions : list Action) : Machine :=
  fold_left (fun m a => dispatch w a m) actions initialMachine.

(* ================================================================== *)
(** * 8a. Loading the table (lines 72-74, 81, 89-121) *)
(* ================================================================== *)

Module FieldMeta.
Record t : Type := mk { id : string; name : string }.
End FieldMeta.

(** The state cells that [fetchData] fills besides the two selections. *)
Record TableInfo : Type := mkTableInfo {
  tableName : string;
  recordCount : nat;
  attachmentFields : list FieldMeta.t
}.

Record App : Type := mkApp {
  appInfo : TableInfo;
  appUI : UI
}.

(** The answers of the host to the four calls of one [fetchData]; each
    is made at most once. *)
Record Host : Type := mkHost {
  activeTable : result unit;
  tableGetName : result string;
  tableGetRecordIdList : result (list string);
  tableGetFieldMetaListByType : result (list FieldMeta.t)
}.

Definition initialApp : App :=
  mkApp (mkTableInfo "Loading..." 0 []) initialUI.

Definition setTableName (v : string) (a : App) : App :=
  mkApp (mkTableInfo v (recordCount (appInfo a)) (attachmentFields (appInfo a)))
    (appUI a).

Definition setRecordCount (v : nat) (a : App) : App :=
  mkApp (mkTableInfo (tableName (appInfo a)) v (attachmentFields (appInfo a)))
    (appUI a).

Definition setAttachmentFields (v : list FieldMeta.t) (a : App) : App :=
  mkApp (mkTableInfo (tableName (appInfo a)) (recordCount (appInfo a)) v)
    (appUI a).

(** Lines 90-110: an exception of any of the calls ends the function in
    its [catch], which only writes to the console; what was set before
    stays set.  The selections tested at lines 104-105 are those of the
    render the effect belongs to; the effect is set up anew whenever one
    of them changes (line 121), so they are the selections of [a].  The
    four awaited calls are taken as one step: no change of the form
    comes between them. *)
Definition fetchDataEffect (h : Host) (a : App) : App :=
  match activeTable h with
  | Exn _ => a
  | Val _ =>
      match tableGetName h with
      | Exn _ => a
      | Val name =>
          let a := setTableName name a in
          match tableGetRecordIdList h with
          | Exn _ => a
          | Val recordList =>
              let a := setRecordCount (List.length recordList) a in
              match tableGetFieldMetaListByType h with
              | Exn _ => a
              | Val attachFields =>
                  let a := setAttachmentFields attachFields a in
                  mkApp (appInfo a)
                    (fetchData (map FieldMeta.id attachFields) (appUI a))
              end
          end
      end
  end.

(** Lines 114-118: the host reports a change of selection. *)
Definition onSelectionChange (tableId : option string) (h : Host) (a : App)
  : App :=
  match tableId with
  | None | Some EmptyString => a
  | Some _ => fetchDataEffect h a
  end.

(* ================================================================== *)
(** * 8b. What is rendered (lines 263-351) *)
(* ================================================================== *)

(** [s.includes(needle)]. *)
Fixpoint includesString (needle s : string) : bool :=
  (String.prefix needle s
   || match s with
      | EmptyString => false
      | String _ s' => includesString needle s'
      end)%bool.

(** The options of the two selects (lines 269-275, 287-293): value and
    label. *)
Definition fieldOptions (a : App) : list (string * string) :=
  match attachmentFields (appInfo a) with
  | [] => [("", "未找到附件字段")]
  | fields => map (fun f => (FieldMeta.id f, FieldMeta.name f)) fields
  end.

(** Line 319. *)
Definition progressShown (u : UI) : bool :=
  (isConverting u && (0 <? total (progress u))%nat)%bool.

(** Line 333: the [disabled] attribute of the button. *)
Definition convertDisabled (u : UI) : bool :=
  (isConverting u
   || isEmpty (selectedSourceFieldId u)
   || isEmpty (selectedTargetFieldId u))%bool.

(** Line 338: nothing for an empty message, else the class and the text. *)
Definition statusClass (statusMsg : string) : string :=
  if (includesString "完成" statusMsg || includesString "成功" statusMsg)%bool
  then "success" else "error".

Definition statusLine (u : UI) : option (string * string) :=
  if isEmpty (statusMsg u) then None
  else Some (statusClass (statusMsg u), statusMsg u).

(** Line 340, 344-348: the log as it is listed. *)
Definition logShown (u : UI) : bool := (0 <? List.length (logs u))%nat.

(** A click on the button (lines 331-337): a disabled button does not
    call its handler. *)
Definition clickConvert (w : World) (m : Machine) : Machine :=
  if convertDisabled (ui m) then m else snd (handleConvert w m).

(** The actions as they reach the component through the form. *)
Definition dispatchForm (w : World) (a : Action) (m : Machine) : Machine :=
  match a with
  | ClickConvert => clickConvert w m
  | _ => dispatch w a m
  end.

Definition formSession (w : World) (actions : list Action) : Machine :=
  fold_left (fun m a => dispatchForm w a m) actions initialMachine.

(* ================================================================== *)
(** * 9. The vocabulary of the statements *)
(* ================================================================== *)

(** Nothing below is part of the program: these are the predicates,
    the machines and the worlds the statements are written with. *)

(** ** Computations in [M] *)

(** [post c m Q]: run from [m], the computation [c] ends in a result and
    a machine that satisfy [Q].  Every computation in [M] is a total
    function, so this is a statement about the run, not about a run
    that may fail to exist. *)
Definition post {A} (c : M A) (m : Machine) (Q : result A -> Machine -> Prop)
  : Prop :=
  Q (fst (c m)) (snd (c m)).

(** ** File names *)

Definition extensions : list string :=
  ["jpg"; "jpeg"; "png"; "webp"; "gif"; "bmp"].

(** [s] ends with a dot and one of the extensions, in any letter case. *)
Definition endsWithExtension (s : string) : Prop :=
  exists pre suf ext,
    s = (pre ++ suf)%string /\ In ext extensions
    /\ JsString.upcase suf = JsString.upcase ("." ++ ext)%string.

(** ** The transform *)

(** The three ways the transform rejects, and the one way it resolves,
    as a function of the history at the call. *)
Definition transformResult (w : World) (h : list Event) (blob : Blob)
    (tw th : float) : result Blob :=
  match decodeImage w h blob with
  | None => Exn "图片加载失败，无法处理"
  | Some (iw, ih) =>
      if getContext2d w h then
        let out := Canvas.toBlob "image/jpeg" jpegQuality
                     (drawToCanvas (HTMLImage.mk blob iw ih) tw th) in
        if encodes w h out then Val out else Exn "Canvas 转换失败"
      else Exn "无法获取 canvas context"
  end.

(** ** One attachment *)

(** The events an attachment can cause. *)
Definition attachmentEvent (tw th : float) (e : Event) : Prop :=
  match e with
  | EvFetch _ => True
  | EvTransform _ tw' th' => tw' = tw /\ th' = th
  | _ => False
  end.

(** A file made from attachment [a] for the target [tw] x [th]. *)
Definition producedFrom (w : World) (tw th : float) (a : Attachment.t)
    (f : File.t) : Prop :=
  File.name f = newFileName (str w) (fileNameOf a) tw th
  /\ File.type f = "image/jpeg"
  /\ exists blob iw ih,
       File.bits f =
         [Canvas.toBlob "image/jpeg" jpegQuality
            (drawToCanvas (HTMLImage.mk blob iw ih) tw th)].

(** What the attachment loop may change: the log, the list of processed
    files (by appending), the trace (by fetches and transforms). *)
Record attachmentFrame (w : World) (tw th : float) (l : list Attachment.t)
    (m m' : Machine) : Prop := {
  af_ui : exists lg, ui m' = with_logs (fun _ => lg) (ui m);
  af_success : successCount (locals m') = successCount (locals m);
  af_skip : skipCount (locals m') = skipCount (locals m);
  af_fail : failCount (locals m') = failCount (locals m);
  af_files : exists fs,
      processedFiles (locals m') = processedFiles (locals m) ++ fs
      /\ List.length fs <= List.length l
      /\ Forall (fun f => exists a, In a l /\ producedFrom w tw th a f) fs;
  af_trace : exists evs,
      trace m' = trace m ++ evs /\ Forall (attachmentEvent tw th) evs
}.

(** The machine an attachment leaves when it fails: the error line names
    the attachment as the host named it, before the message of the
    exception; the variables of the run are as they were. *)
Definition failedAttachment (a : Attachment.t) (message : string)
    (u : UI) (l : Locals) (t : list Event) : Machine :=
  mkMachine
    (pushLog
       (mkLog ("处理附件失败: " ++ Attachment.name a ++ " - " ++ message) error) u)
    l t.

Definition downloading (a : Attachment.t) (u : UI) : UI :=
  pushLog (mkLog ("正在下载附件: " ++ fileNameOf a) info) u.


(** ** One record *)

Definition uploading (n : nat) (u : UI) : UI :=
  pushLog
    (mkLog ("正在上传 " ++ Number.string_of_nat n ++ " 个文件到目标字段...") info) u.

(** The handler of the per-record [catch] (lines 230-234). *)
Definition recordFailed (i : nat) (message : string) (m : Machine) : Machine :=
  mkMachine (pushLog (mkLog (row i ++ "失败 - " ++ message) error) (ui m))
    (countFail (locals m)) (trace m).

(** The events a record can cause once its attachment list was read. *)
Definition innerEvent (u : UI) (e : Event) : Prop :=
  match e with
  | EvGetCellAttachmentUrls _ _ _ | EvFetch _ | EvSetValue _ _ _ => True
  | EvTransform _ tw th => tw = targetWidth u /\ th = targetHeight u
  | _ => False
  end.

(** The three outcomes of a record, as the counters show them. *)
Definition outcomeSuccess (l l' : Locals) : Prop :=
  successCount l' = S (successCount l) /\ skipCount l' = skipCount l
  /\ failCount l' = failCount l.

Definition outcomeSkipped (l l' : Locals) : Prop :=
  successCount l' = successCount l /\ skipCount l' = S (skipCount l)
  /\ failCount l' = failCount l.

Definition outcomeFailed (l l' : Locals) : Prop :=
  successCount l' = successCount l /\ skipCount l' = skipCount l
  /\ failCount l' = S (failCount l).

(** Exactly one of the three counters went up, by one. *)
Definition oneCounted (l l' : Locals) : Prop :=
  outcomeSuccess l l' \/ outcomeSkipped l l' \/ outcomeFailed l l'.

(** What one iteration of the outer loop may change. *)
Record recordFrame (u : UI) (total i : nat) (recordId : string)
    (m m' : Machine) : Prop := {
  rf_ui : exists lg,
      ui m' = with_logs (fun _ => lg)
                (withProgress (mkProgress (i + 1) total) (ui m));
  rf_counts : oneCounted (locals m) (locals m');
  rf_trace : exists evs,
      trace m' = trace m ++
        EvSetProgress (mkProgress (i + 1) total)
        :: EvGetValue (selectedSourceFieldId u) recordId :: evs
      /\ Forall (innerEvent u) evs
}.

(** ** The batch *)

(** The two events that open an iteration of the outer loop. *)
Definition isKey (e : Event) : bool :=
  match e with
  | EvSetProgress _ | EvGetValue _ _ => true
  | _ => false
  end.

(** For each record in turn: the progress is raised, then the record's
    attachment cell is read. *)
Fixpoint openings (u : UI) (total i : nat) (recordIds : list string)
  : list Event :=
  match recordIds with
  | [] => []
  | recordId :: rest =>
      EvSetProgress (mkProgress (i + 1) total)
      :: EvGetValue (selectedSourceFieldId u) recordId
      :: openings u total (S i) rest
  end.

Definition loopProgress (total i : nat) (recordIds : list string)
    (p : Progress) : Progress :=
  match recordIds with
  | [] => p
  | _ :: _ => mkProgress (i + List.length recordIds) total
  end.

(** What the outer loop may change. *)
Record loopFrame (u : UI) (total i : nat) (recordIds : list string)
    (m m' : Machine) : Prop := {
  lf_ui : exists lg,
      ui m' = with_logs (fun _ => lg)
                (withProgress (loopProgress total i recordIds (progress (ui m)))
                   (ui m));
  lf_sum :
      successCount (locals m') + skipCount (locals m') + failCount (locals m')
      = successCount (locals m) + skipCount (locals m) + failCount (locals m)
        + List.length recordIds;
  lf_mono : successCount (locals m) <= successCount (locals m')
            /\ skipCount (locals m) <= skipCount (locals m')
            /\ failCount (locals m) <= failCount (locals m');
  lf_trace : exists evs,
      trace m' = trace m ++ evs
      /\ filter isKey evs = openings u total i recordIds
      /\ Forall (fun e => isKey e = true \/ innerEvent u e) evs
}.

Inductive Preamble : Type :=
| NoSelection
| HostFailed (message : string) (evs : list Event)
| NoRecords
| Ready (recordIds : list string).

Definition preamble (w : World) (m : Machine) : Preamble :=
  let src := selectedSourceFieldId (ui m) in
  let tgt := selectedTargetFieldId (ui m) in
  if (isEmpty src || isEmpty tgt)%bool then NoSelection
  else
    match getActiveTable w (trace m) with
    | Exn e => HostFailed e [EvGetActiveTable]
    | Val _ =>
        match getRecordIdList w (trace m ++ [EvGetActiveTable]) with
        | Exn e => HostFailed e [EvGetActiveTable; EvGetRecordIdList]
        | Val recordIds =>
            if (List.length recordIds =? 0)%nat then NoRecords
            else
              let p := EvSetProgress (mkProgress 0 (List.length recordIds)) in
              let h := trace m ++ [EvGetActiveTable; EvGetRecordIdList; p] in
              match getField w h src with
              | Exn e =>
                  HostFailed e
                    [EvGetActiveTable; EvGetRecordIdList; p; EvGetField src]
              | Val _ =>
                  match getField w (h ++ [EvGetField src]) tgt with
                  | Exn e =>
                      HostFailed e
                        [EvGetActiveTable; EvGetRecordIdList; p;
                         EvGetField src; EvGetField tgt]
                  | Val _ => Ready recordIds
                  end
              end
        end
    end.

(** The state cells as [handleConvert] sets them before its [try]. *)
Definition started (u : UI) : UI :=
  with_logs (fun _ => [])
    (withStatusMsg "正在初始化处理..." (withIsConverting true u)).

(** The [finally] block. *)
Definition finished (u : UI) : UI :=
  withProgress (mkProgress 0 0) (withIsConverting false u).

(** The machine when the loop is entered. *)
Definition atLoop (m : Machine) (recordIds : list string) : Machine :=
  let u := ui m in
  mkMachine
    (withProgress (mkProgress 0 (List.length recordIds)) (started u))
    (mkLocals 0 0 0 (processedFiles (locals m)))
    (trace m ++
       [EvGetActiveTable; EvGetRecordIdList;
        EvSetProgress (mkProgress 0 (List.length recordIds));
        EvGetField (selectedSourceFieldId u);
        EvGetField (selectedTargetFieldId u)]).

(** The machine a run leaves when it is stopped before the loop, after
    the events [evs]. *)
Definition aborted (m : Machine) (message : string) (evs : list Event)
  : Machine :=
  mkMachine
    (finished
       (withStatusMsg ("失败: " ++ JsString.or_else message "未知错误")
          (started (ui m))))
    (locals m)
    (trace m ++ evs ++ [EvSetProgress (mkProgress 0 0)]).

(** The machine a run leaves when its loop ended in [m']. *)
Definition completed (m' : Machine) : Machine :=
  mkMachine
    (finished (withStatusMsg (summary (locals m')) (ui m')))
    (locals m')
    (trace m' ++ [EvSetProgress (mkProgress 0 0)]).

(** ** Worlds to run the program in *)

(** A world whose answers do not depend on the history: the record ids,
    the answer for each field and each record's cell, the response for
    each URL, the size every body decodes to, and the acknowledgement
    of every write. *)
Definition scripted
    (recordIds : result (list string))
    (field : string -> result unit)
    (cell : string -> result (option (list Attachment.t)))
    (response : option string -> result Response.t)
    (size : option (Z * Z))
    (ack : result bool) : World :=
  {| getActiveTable := fun _ => Val tt;
     getRecordIdList := fun _ => recordIds;
     getField := fun _ f => field f;
     getValue := fun _ _ r => cell r;
     getCellAttachmentUrls := fun _ tokens _ _ =>
       Val (map (fun t => ("https://files/" ++ t)%string) tokens);
     fetch := fun _ u => response u;
     setValue := fun _ _ _ _ => ack;
     decodeImage := fun _ _ => size;
     getContext2d := fun _ => true;
     encodes := fun _ _ => true;
     numberToString := fun _ => "" |}.

Definition jpegBody : Response.t := Response.mk true "OK" (Val (Bytes "jpegdata")).


(** Three records: a 200x100 photograph beside a PDF, an empty cell, and
    a cell whose read throws. *)
Definition threeRecords : World :=
  scripted (Val ["r1"; "r2"; "r3"]) (fun _ => Val tt)
    (fun r =>
       if String.eqb r "r1"
       then Val (Some [Attachment.mk "t1" "photo.JPG"; Attachment.mk "t2" "doc.pdf"])
       else if String.eqb r "r2" then Val (Some [])
       else Exn "boom")
    (fun _ => Val jpegBody) (Some (200, 100)%Z) (Val true).


(** One record with one image; the destination does not acknowledge. *)
Definition writeRejected : World :=
  scripted (Val ["r1"]) (fun _ => Val tt)
    (fun _ => Val (Some [Attachment.mk "t1" "a.png"]))
    (fun _ => Val jpegBody) (Some (200, 100)%Z) (Val false).

(** One record; the target field cannot be fetched. *)
Definition fieldMissing : World :=
  scripted (Val ["r1"])
    (fun f => if String.eqb f "fldB" then Exn "field not found" else Val tt)
    (fun _ => Val (Some [Attachment.mk "t1" "a.png"]))
    (fun _ => Val jpegBody) (Some (200, 100)%Z) (Val true).


(** One record whose only attachment has no name. *)
Definition unnamedAttachment : World :=
  scripted (Val ["r1"]) (fun _ => Val tt)
    (fun _ => Val (Some [Attachment.mk "t1" ""]))
    (fun _ => Val jpegBody) (Some (200, 100)%Z) (Val true).

(** A machine on which both fields are selected and the target is
    100 x 100. *)
Definition ready100 : Machine :=
  mkMachine
    (setTargetHeight 100%float
       (setTargetWidth 100%float
          (setSelectedTargetFieldId "fldB"
             (setSelectedSourceFieldId "fldA" initialUI))))
    (mkLocals 0 0 0 []) [].

(** ** The inner loop of a record *)

(** The machine when the inner loop is entered, and when it is left. *)
Definition beforeAttachments (u : UI) (total i : nat) (recordId : string)
    (attachmentList : list Attachment.t) (m : Machine) : Machine :=
  mkMachine
    (pushLog
       (mkLog (row i ++ "正在处理 "
                 ++ Number.string_of_nat (List.length attachmentList)
                 ++ " 个附件...") info)
       (withProgress (mkProgress (i + 1) total) (ui m)))
    (withProcessedFiles [] (locals m))
    (trace m ++
       [EvSetProgress (mkProgress (i + 1) total);
        EvGetValue (selectedSourceFieldId u) recordId;
        EvGetCellAttachmentUrls (map Attachment.token attachmentList)
          (selectedSourceFieldId u) recordId]).

Definition afterAttachments (w : World) (u : UI) (total i : nat)
    (recordId : string) (attachmentList : list Attachment.t)
    (urls : list string) (m : Machine) : Machine :=
  snd (attachmentsLoop w (targetWidth u) (targetHeight u) urls 0 attachmentList
         (beforeAttachments u total i recordId attachmentList m)).


(** ** Traces *)

(** The records whose cell was read, and the values the progress took,
    in the order of the trace. *)
Definition getValueCalls (evs : list Event) : list string :=
  flat_map (fun e => match e with EvGetValue _ r => [r] | _ => [] end) evs.

Definition progressUpdates (evs : list Event) : list Progress :=
  flat_map (fun e => match e with EvSetProgress p => [p] | _ => [] end) evs.

(** The events of a preamble that failed: neither a cell read nor a
    transform is among them. *)
Definition preambleEvent (e : Event) : Prop :=
  match e with
  | EvGetActiveTable | EvGetRecordIdList | EvGetField _ | EvSetProgress _ => True
  | _ => False
  end.

(** ** Readings of the claims *)

(** The reading of C9 as it is stated: whenever the progress is set,
    its [current] counts records whose cell has already been read. *)
Fixpoint progressFollowsRecords (read : nat) (evs : list Event) : bool :=
  match evs with
  | [] => true
  | EvGetValue _ _ :: rest => progressFollowsRecords (S read) rest
  | EvSetProgress p :: rest =>
      ((current p <=? read)%nat && progressFollowsRecords read rest)%bool
  | _ :: rest => progressFollowsRecords read rest
  end.

(** The machine when the [try] of a record is entered (line 159). *)
Definition atRecord (total i : nat) (m : Machine) : Machine :=
  mkMachine (withProgress (mkProgress (i + 1) total) (ui m)) (locals m)
    (trace m ++ [EvSetProgress (mkProgress (i + 1) total)]).

(** The three calls whose exception reaches the boundary of the record:
    the read of the source cell, the resolution of the URLs, the write
    of a non-empty list of files. *)
Definition thrownByHost (w : World) (u : UI) (recordId : string)
    (e : string) : Prop :=
  (exists h, getValue w h (selectedSourceFieldId u) recordId = Exn e)
  \/ (exists h tokens,
        getCellAttachmentUrls w h tokens (selectedSourceFieldId u) recordId
        = Exn e)
  \/ (exists h files,
        files <> []
        /\ setValue w h (selectedTargetFieldId u) recordId files = Exn e).

(** One record with one image; the URLs cannot be resolved. *)
Definition urlsUnavailable : World :=
  {| getActiveTable := fun _ => Val tt;
     getRecordIdList := fun _ => Val ["r1"];
     getField := fun _ _ => Val tt;
     getValue := fun _ _ _ => Val (Some [Attachment.mk "t1" "a.png"]);
     getCellAttachmentUrls := fun _ _ _ _ => Exn "no permission";
     fetch := fun _ _ => Val jpegBody;
     setValue := fun _ _ _ _ => Val true;
     decodeImage := fun _ _ => Some (200, 100)%Z;
     getContext2d := fun _ => true;
     encodes := fun _ _ => true;
     numberToString := fun _ => "" |}.

(** One record with one image; the write throws. *)
Definition writeThrows : World :=
  scripted (Val ["r1"]) (fun _ => Val tt)
    (fun _ => Val (Some [Attachment.mk "t1" "a.png"]))
    (fun _ => Val jpegBody) (Some (200, 100)%Z) (Exn "quota exceeded").

(** Every transform recorded in [evs] was called with the dimensions
    held by [u]. *)
Definition calledWith (u : UI) (e : Event) : Prop :=
  match e with
  | EvTransform _ tw th => tw = targetWidth u /\ th = targetHeight u
  | _ => True
  end.

Definition truthyDimensions (e : Event) : Prop :=
  match e with
  | EvTransform _ tw th => Number.falsy tw = false /\ Number.falsy th = false
  | _ => True
  end.

Definition dimensionsInvariant (m : Machine) : Prop :=
  Forall truthyDimensions (trace m)
  /\ Number.falsy (targetWidth (ui m)) = false
  /\ Number.falsy (targetHeight (ui m)) = false.

(** ** The form between runs *)

(** The messages a finished run can leave. *)
Definition restingStatus (s : string) : Prop :=
  s = ""
  \/ s = "请先选择源字段和目标字段"
  \/ (exists e, e <> "" /\ s = ("失败: " ++ e)%string)
  \/ (exists l, s = summary l).

(** ** The calls of a run *)

(** The URLs fetched, in order ([None]: [fetch(undefined)]). *)
Definition fetchCalls (evs : list Event) : list (option string) :=
  flat_map (fun e => match e with EvFetch url => [url] | _ => [] end) evs.

(** The blobs handed to the transform, in order. *)
Definition transformCalls (evs : list Event) : list Blob :=
  flat_map (fun e => match e with EvTransform blob _ _ => [blob] | _ => [] end) evs.

(** What the download of [url] delivers at history [h] (lines 193-195):
    the body of an answer that is ok. *)
Definition downloaded (w : World) (h : list Event) (url : option string)
  : option Blob :=
  match fetch w h url with
  | Val response =>
      if Response.ok response then
        match Response.blob response with
        | Val blob => Some blob
        | Exn _ => None
        end
      else None
  | Exn _ => None
  end.

(** The calls one attachment causes at history [h]: none for a name
    that is not an image; else one download, followed by one transform
    of what was downloaded, if anything was. *)
Definition attachmentCall (w : World) (tw th : float) (h : list Event)
    (a : Attachment.t) (url : option string) : list Event :=
  if isImage (fileNameOf a) then
    EvFetch url ::
      match downloaded w h url with
      | Some blob => [EvTransform blob tw th]
      | None => []
      end
  else [].

(** The calls of the inner loop from index [j] on. *)
Fixpoint attachmentCalls (w : World) (tw th : float) (urls : list string)
    (h : list Event) (j : nat) (l : list Attachment.t) : list Event :=
  match l with
  | [] => []
  | a :: l' =>
      let evs := attachmentCall w tw th h a (nth_error urls j) in
      evs ++ attachmentCalls w tw th urls (h ++ evs) (S j) l'
  end.

(** For each attachment with the name of an image, in order, the URL
    at the index of the attachment. *)
Fixpoint imageUrls (urls : list string) (j : nat) (l : list Attachment.t)
  : list (option string) :=
  match l with
  | [] => []
  | a :: l' =>
      (if isImage (fileNameOf a) then [nth_error urls j] else [])
        ++ imageUrls urls (S j) l'
  end.

(** The cells written, in order: field and record. *)
Definition writes (evs : list Event) : list (string * string) :=
  flat_map (fun e => match e with EvSetValue f r _ => [(f, r)] | _ => [] end) evs.

(** The calls of a record once its attachment cell was read. *)
Definition innerCall (u : UI) (recordId : string) (e : Event) : Prop :=
  match e with
  | EvGetCellAttachmentUrls _ f r => f = selectedSourceFieldId u /\ r = recordId
  | EvFetch _ => True
  | EvTransform _ tw th => tw = targetWidth u /\ th = targetHeight u
  | EvSetValue f r files =>
      f = selectedTargetFieldId u /\ r = recordId /\ files <> []
      /\ Forall (fun x => File.type x = "image/jpeg") files
  | _ => False
  end.

(** A record writes at most once, at the end, and no more files than it
    had transforms. *)
Definition recordInner (u : UI) (recordId : string) (inner : list Event) : Prop :=
  Forall (innerCall u recordId) inner
  /\ (writes inner = []
      \/ exists pre files,
           inner = pre ++ [EvSetValue (selectedTargetFieldId u) recordId files]
           /\ writes pre = []
           /\ List.length files <= List.length (transformCalls pre)).

(** The calls of the outer loop from index [i] on: record by record, the
    progress, the read of the source cell, then the calls of the
    record. *)
Inductive loopCalls (u : UI) (total : nat)
  : nat -> list string -> list Event -> Prop :=
| loop_done i : loopCalls u total i [] []
| loop_record i recordId rest inner evs :
    recordInner u recordId inner ->
    loopCalls u total (S i) rest evs ->
    loopCalls u total i (recordId :: rest)
      (EvSetProgress (mkProgress (i + 1) total)
       :: EvGetValue (selectedSourceFieldId u) recordId :: inner ++ evs).

(** [l1] is [l2] with some of its elements left out. *)
Inductive Subsequence {A : Type} : list A -> list A -> Prop :=
| sub_nil : Subsequence [] []
| sub_skip x l1 l2 : Subsequence l1 l2 -> Subsequence l1 (x :: l2)
| sub_take x l1 l2 : Subsequence l1 l2 -> Subsequence (x :: l1) (x :: l2).

(** A check of the order of the calls: every write goes to the record
    that was read last, at most once per read, with at least one file
    and no more files than transforms were called since that read. *)
Fixpoint writesAreCovered (read : option string) (transforms : nat)
    (evs : list Event) : bool :=
  match evs with
  | [] => true
  | EvGetValue _ r :: evs' => writesAreCovered (Some r) 0 evs'
  | EvTransform _ _ _ :: evs' => writesAreCovered read (S transforms) evs'
  | EvSetValue _ r files :: evs' =>
      match read with Some r' => String.eqb r r' | None => false end
      && (1 <=? List.length files)%nat
      && (List.length files <=? transforms)%nat
      && writesAreCovered None 0 evs'
  | _ :: evs' => writesAreCovered read transforms evs'
  end.

(** The cells a run may touch: the source field of its records for
    reading, the target field of its records for writing, and only
    JPEG files, at least one, in a write. *)
Definition cellDiscipline (u : UI) (recordIds : list string) (e : Event)
  : Prop :=
  match e with
  | EvGetValue f r => f = selectedSourceFieldId u /\ In r recordIds
  | EvGetCellAttachmentUrls _ f r =>
      f = selectedSourceFieldId u /\ In r recordIds
  | EvSetValue f r files =>
      f = selectedTargetFieldId u /\ In r recordIds /\ files <> []
      /\ Forall (fun x => File.type x = "image/jpeg") files
  | _ => True
  end.

(** The records of the table, for a run that gets to its loop. *)
Definition recordsOf (p : Preamble) : list string :=
  match p with
  | Ready recordIds => recordIds
  | _ => []
  end.

(** ** Loading the table *)

(** The actions that change a selection by hand. *)
Definition isFieldChange (a : Action) : bool :=
  match a with
  | ChangeSourceField _ | ChangeTargetField _ => true
  | _ => false
  end.

(** The calls on cells. *)
Definition onField (f : string) (e : Event) : Prop :=
  match e with
  | EvGetValue f' _ | EvGetCellAttachmentUrls _ f' _ | EvSetValue f' _ _ => f' = f
  | _ => True
  end.

Definition noCell (e : Event) : Prop :=
  match e with
  | EvGetValue _ _ | EvGetCellAttachmentUrls _ _ _ | EvSetValue _ _ _ => False
  | _ => True
  end.

Definition defaultSelection (m : Machine) : Prop :=
  selectedSourceFieldId (ui m) = selectedTargetFieldId (ui m)
  /\ Forall (if isEmpty (selectedSourceFieldId (ui m)) then noCell
             else onField (selectedSourceFieldId (ui m))) (trace m).

(* ================================================================== *)
(** * 10. Reasoning about computations in [M] *)
(* ================================================================== *)

Lemma post_intro {A} (c : M A) (m : Machine) (Q : result A -> Machine -> Prop) :
  post c m Q -> forall r m', c m = (r, m') -> Q r m'.
Proof. unfold post. intros H r m' E. now rewrite E in H. Qed.

Lemma post_eq {A} (c : M A) (m : Machine) (x : result A * Machine) :
  post c m (fun r m' => (r, m') = x) -> c m = x.
Proof. unfold post. now destruct (c m). Qed.

Lemma post_mono {A} (c : M A) m (P Q : result A -> Machine -> Prop) :
  post c m P -> (forall r m', P r m' -> Q r m') -> post c m Q.
Proof. unfold post. auto. Qed.

Lemma post_ret {A} (a : A) m Q : Q (Val a) m -> post (ret a) m Q.
Proof. exact (fun H => H). Qed.

Lemma post_throw {A} e m (Q : result A -> Machine -> Prop) :
  Q (Exn e) m -> post (throw e) m Q.
Proof. exact (fun H => H). Qed.

Lemma post_lift {A} (r : result A) m Q : Q r m -> post (lift r) m Q.
Proof. exact (fun H => H). Qed.

Lemma post_bind {A B} (c : M A) (f : A -> M B) m Q :
  post c m (fun r m' =>
    match r with
    | Val a => post (f a) m' Q
    | Exn e => Q (Exn e) m'
    end) ->
  post (bind c f) m Q.
Proof.
  unfold post, bind. destruct (c m) as [[a|e] m']; simpl; auto.
Qed.

Lemma post_try_catch {A} (body : M A) handler m Q :
  post body m (fun r m' =>
    match r with
    | Val a => Q (Val a) m'
    | Exn e => post (handler e) m' Q
    end) ->
  post (try_catch body handler) m Q.
Proof.
  unfold post, try_catch. destruct (body m) as [[a|e] m']; simpl; auto.
Qed.

Lemma post_try_finally {A} (body : M A) fin m Q :
  post body m (fun r m' =>
    post fin m' (fun r' m'' =>
      match r' with
      | Val _ => Q r m''
      | Exn e => Q (Exn e) m''
      end)) ->
  post (try_finally body fin) m Q.
Proof.
  unfold post, try_finally. destruct (body m) as [r m']; simpl.
  destruct (fin m') as [[u|e] m'']; simpl; auto.
Qed.

Lemma post_call {A} ev (oracle : list Event -> result A) m Q :
  Q (oracle (trace m)) (mkMachine (ui m) (locals m) (trace m ++ [ev])) ->
  post (call ev oracle) m Q.
Proof. exact (fun H => H). Qed.

Lemma post_emit ev m Q :
  Q (Val tt) (mkMachine (ui m) (locals m) (trace m ++ [ev])) ->
  post (emit ev) m Q.
Proof. exact (fun H => H). Qed.

Lemma post_modifyUI f m Q :
  Q (Val tt) (mkMachine (f (ui m)) (locals m) (trace m)) ->
  post (modifyUI f) m Q.
Proof. exact (fun H => H). Qed.

Lemma post_modifyLocals f m Q :
  Q (Val tt) (mkMachine (ui m) (f (locals m)) (trace m)) ->
  post (modifyLocals f) m Q.
Proof. exact (fun H => H). Qed.

Lemma post_history m Q : Q (Val (trace m)) m -> post history m Q.
Proof. exact (fun H => H). Qed.

Lemma post_getUI m Q : Q (Val (ui m)) m -> post getUI m Q.
Proof. exact (fun H => H). Qed.

Lemma post_getLocals m Q : Q (Val (locals m)) m -> post getLocals m Q.
Proof. exact (fun H => H). Qed.

(** One step of symbolic execution. *)
Ltac mstep :=
  lazymatch goal with
  | |- post (bind _ _) _ _ => apply post_bind
  | |- post (ret _) _ _ => apply post_ret
  | |- post (throw _) _ _ => apply post_throw
  | |- post (lift _) _ _ => apply post_lift
  | |- post (try_catch _ _) _ _ => apply post_try_catch
  | |- post (try_finally _ _) _ _ => apply post_try_finally
  | |- post (call _ _) _ _ => apply post_call
  | |- post (emit _) _ _ => apply post_emit
  | |- post (modifyUI _) _ _ => apply post_modifyUI
  | |- post (modifyLocals _) _ _ => apply post_modifyLocals
  | |- post history _ _ => apply post_history
  | |- post getUI _ _ => apply post_getUI
  | |- post getLocals _ _ => apply post_getLocals
  | |- post (addLog _ _) _ _ => unfold addLog
  | |- post (setProgress _) _ _ => unfold setProgress
  | |- post (setStatusMsg _) _ _ => unfold setStatusMsg
  | |- post (setIsConverting _) _ _ => unfold setIsConverting
  | |- post (setLogs _) _ _ => unfold setLogs
  | |- post (setCounts _ _ _) _ _ => unfold setCounts
  | |- post incrSuccess _ _ => unfold incrSuccess
  | |- post incrSkip _ _ => unfold incrSkip
  | |- post incrFail _ _ => unfold incrFail
  | |- post (setProcessedFiles _) _ _ => unfold setProcessedFiles
  | |- post (pushProcessedFile _) _ _ => unfold pushProcessedFile
  | |- post (if ?b then _ else _) _ _ => destruct b eqn:?
  | |- post (match ?x with _ => _ end) _ _ => destruct x eqn:?
  | |- match ?r with Val _ => _ | Exn _ => _ end => destruct r eqn:?
  | |- post (let _ := _ in _) _ _ => cbv zeta
  end.

Ltac msimpl := cbv beta; cbn [ui locals trace fst snd].

Ltac msteps := repeat (mstep; msimpl).

(* ================================================================== *)
(** * 11. Numbers and the crop rectangle *)
(* ================================================================== *)

Lemma SFcompare_Eq_sym (a b : spec_float) :
  SFcompare a b = Some Eq -> SFcompare b a = Some Eq.
Proof.
  destruct a as [sa|sa| |sa ma ea], b as [sb|sb| |sb mb eb]; simpl;
    try destruct sa; try destruct sb; try discriminate; try reflexivity.
  all: destruct (ea ?= eb)%Z eqn:E; try discriminate;
    apply Z.compare_eq in E; subst eb; rewrite Z.compare_refl;
    intros H; injection H as H.
  - apply (f_equal CompOpp) in H; rewrite CompOpp_involutive in H; simpl in H.
    apply Pos.compare_eq in H. subst. now rewrite Pos.compare_cont_refl.
  - apply Pos.compare_eq in H. subst. now rewrite Pos.compare_cont_refl.
Qed.

(** Two numbers that compare equal are not ordered: [x == y] excludes
    [x > y]. *)
Lemma ltb_false_of_eqb (x y : float) :
  PrimFloat.eqb x y = true -> PrimFloat.ltb y x = false.
Proof.
  rewrite FloatAxioms.eqb_spec, FloatAxioms.ltb_spec. unfold SFeqb, SFltb.
  destruct (SFcompare (Prim2SF x) (Prim2SF y)) as [[]|] eqn:E; try discriminate.
  intros _. now rewrite (SFcompare_Eq_sym _ _ E).
Qed.

Lemma SFcompare_refl_finite (s : bool) (m : positive) (e : Z) :
  SFcompare (S754_finite s m e) (S754_finite s m e) = Some Eq.
Proof.
  simpl. destruct s; rewrite Z.compare_refl, Pos.compare_cont_refl; reflexivity.
Qed.

(** An integer below 2^53 is printed with its own digits, whatever the
    platform does with the other numbers. *)
Lemma toString_integer (other : float -> string) (x : float) (z : Z) :
  Number.to_integer x = Some z -> (Z.abs z < 2 ^ 53)%Z ->
  Number.toString other x = Number.string_of_Z z.
Proof.
  intros Hz Hr. unfold Number.toString.
  assert (N : PrimFloat.is_nan x = false
              /\ PrimFloat.eqb x infinity = false
              /\ PrimFloat.eqb x neg_infinity = false).
  { unfold Number.to_integer, Number.is_integral in Hz.
    unfold PrimFloat.is_nan. rewrite !FloatAxioms.eqb_spec.
    change (Prim2SF infinity) with (S754_infinity false).
    change (Prim2SF neg_infinity) with (S754_infinity true).
    destruct (Prim2SF x) as [s|s| |s mm e]; try discriminate Hz.
    - destruct s; repeat split; reflexivity.
    - unfold SFeqb. rewrite SFcompare_refl_finite.
      destruct s; repeat split; reflexivity. }
  destruct N as (-> & -> & ->). rewrite Hz.
  apply Z.ltb_lt in Hr. now rewrite Hr.
Qed.

(** After [v || 1] a dimension is neither zero nor [NaN]. *)
Lemma falsy_or_else (x : float) :
  Number.falsy (Number.or_else x 1%float) = false.
Proof.
  unfold Number.or_else. destruct (Number.falsy x) eqn:E; [reflexivity | exact E].
Qed.


Lemma cropRect_wide (iw ih tw th : float) :
  PrimFloat.ltb (tw / th) (iw / ih) = true ->
  cropRect iw ih tw th =
    mkRect ((iw - ih * (tw / th)) / 2)%float 0%float (ih * (tw / th))%float ih.
Proof.
  intros H. unfold cropRect, targetRatio, currentRatio. simpl. now rewrite H.
Qed.

Lemma cropRect_tall (iw ih tw th : float) :
  PrimFloat.ltb (tw / th) (iw / ih) = false ->
  cropRect iw ih tw th =
    mkRect 0%float ((ih - iw / (tw / th)) / 2)%float iw (iw / (tw / th))%float.
Proof.
  intros H. unfold cropRect, targetRatio, currentRatio. simpl. now rewrite H.
Qed.

(** Over the rationals an input of the target's ratio is not cropped. *)
Lemma cropRect_exact_equal_ratio (iw ih tw th : Q) :
  (0 < iw)%Q -> (0 < ih)%Q -> (0 < tw)%Q -> (0 < th)%Q ->
  (iw / ih == tw / th)%Q ->
  (sourceX (cropRect iw ih tw th) == 0)%Q
  /\ (sourceY (cropRect iw ih tw th) == 0)%Q
  /\ (sourceWidth (cropRect iw ih tw th) == iw)%Q
  /\ (sourceHeight (cropRect iw ih tw th) == ih)%Q.
Proof.
  intros Hiw Hih Htw Hth E.
  assert (Niw : ~ (iw == 0)%Q) by (intros Z0; rewrite Z0 in Hiw; discriminate).
  assert (Nih : ~ (ih == 0)%Q) by (intros Z0; rewrite Z0 in Hih; discriminate).
  assert (Ntw : ~ (tw == 0)%Q) by (intros Z0; rewrite Z0 in Htw; discriminate).
  assert (Nth : ~ (th == 0)%Q) by (intros Z0; rewrite Z0 in Hth; discriminate).
  assert (Hsh : (iw / (tw / th) == ih)%Q).
  { rewrite <- E. field. split; assumption. }
  unfold cropRect, targetRatio, currentRatio. cbn [n_gt n_div Arith_Q].
  apply Qeq_alt in E. rewrite E.
  cbn [sourceX sourceY sourceWidth sourceHeight n_zero n_two n_sub n_div Arith_Q].
  repeat split; try reflexivity.
  - rewrite Hsh. field.
  - exact Hsh.
Qed.

(** ** C1 *)

(** C1 (amended).  The crop rectangle is computed by the formulas of the
    specification in binary64 arithmetic: when the image's ratio exceeds
    the target's, the full height and a centred width [imgHeight *
    targetRatio]; otherwise the full width and a centred height
    [imgWidth / targetRatio].  Equal ratios take the second branch, which
    never crops horizontally ([sourceX = 0], [sourceWidth = imgWidth]);
    its height and vertical offset are the image's height and 0 when the
    formulas are evaluated exactly, over the rationals. *)
Theorem cropRect_formulas :
  (forall iw ih tw th : float,
      (PrimFloat.ltb (tw / th) (iw / ih) = true ->
       cropRect iw ih tw th =
         mkRect ((iw - ih * (tw / th)) / 2)%float 0%float
                (ih * (tw / th))%float ih)
      /\ (PrimFloat.ltb (tw / th) (iw / ih) = false ->
          cropRect iw ih tw th =
            mkRect 0%float ((ih - iw / (tw / th)) / 2)%float
                   iw (iw / (tw / th))%float)
      /\ (PrimFloat.eqb (iw / ih) (tw / th) = true ->
          sourceX (cropRect iw ih tw th) = 0%float
          /\ sourceWidth (cropRect iw ih tw th) = iw
          /\ sourceHeight (cropRect iw ih tw th) = (iw / (tw / th))%float
          /\ sourceY (cropRect iw ih tw th)
             = ((ih - iw / (tw / th)) / 2)%float))
  /\ (forall iw ih tw th : Q,
        (0 < iw)%Q -> (0 < ih)%Q -> (0 < tw)%Q -> (0 < th)%Q ->
        (iw / ih == tw / th)%Q ->
        (sourceX (cropRect iw ih tw th) == 0)%Q
        /\ (sourceY (cropRect iw ih tw th) == 0)%Q
        /\ (sourceWidth (cropRect iw ih tw th) == iw)%Q
        /\ (sourceHeight (cropRect iw ih tw th) == ih)%Q).
Proof.
  split.
  - intros iw ih tw th. split; [apply cropRect_wide|].
    split; [apply cropRect_tall|].
    intros E. apply ltb_false_of_eqb in E.
    now rewrite (cropRect_tall _ _ _ _ E).
  - exact cropRect_exact_equal_ratio.
Qed.

(** A 400x100 image for a 100x100 target loses 150 columns on each
    side; a 700x500 image for a 700x500 target is not cropped when the
    formulas are read exactly. *)
Lemma cropRect_formulas_witness :
  cropRect (Number.of_Z 400) (Number.of_Z 100) 100%float 100%float
    = mkRect 150%float 0%float 100%float 100%float
  /\ (sourceY (cropRect (700 # 1)%Q (500 # 1)%Q (700 # 1)%Q (500 # 1)%Q) == 0)%Q.
Proof.
  split.
  - exact (proj1 (proj1 cropRect_formulas
                    (Number.of_Z 400) (Number.of_Z 100) 100%float 100%float)
                 eq_refl).
  - exact (proj1 (proj2 (proj2 cropRect_formulas
                           (700 # 1)%Q (500 # 1)%Q (700 # 1)%Q (500 # 1)%Q
                           eq_refl eq_refl eq_refl eq_refl eq_refl))).
Defined.

(** C1, as stated, fails in the arithmetic the program runs on: a
    700x500 image has exactly the ratio of a 700x500 target, and the
    rectangle computed for it is 500.00000000000006 high and starts
    2.8e-14 above the image. *)
Lemma cropRect_equal_ratio_rounds :
  PrimFloat.eqb (currentRatio (Number.of_Z 700) (Number.of_Z 500))
                (targetRatio 700%float 500%float) = true
  /\ sourceHeight (cropRect (Number.of_Z 700) (Number.of_Z 500) 700%float 500%float)
     = 0x1.f400000000001p+8%float
  /\ sourceY (cropRect (Number.of_Z 700) (Number.of_Z 500) 700%float 500%float)
     = (-0x1p-45)%float
  /\ sourceHeight (cropRect (Number.of_Z 700) (Number.of_Z 500) 700%float 500%float)
     <> Number.of_Z 500
  /\ sourceY (cropRect (Number.of_Z 700) (Number.of_Z 500) 700%float 500%float)
     <> 0%float.
Proof.
  repeat split; try (vm_compute; reflexivity).
  - intros E. apply (f_equal (fun x => PrimFloat.eqb x 500%float)) in E.
    vm_compute in E. discriminate.
  - intros E. apply (f_equal (fun x => PrimFloat.eqb x 0%float)) in E.
    vm_compute in E. discriminate.
Qed.

(* ================================================================== *)
(** * 12. File names *)
(* ================================================================== *)

Local Open Scope string_scope.

Lemma lastIndexOf_lower_bound (c : ascii) (s : string) :
  (-1 <= JsString.lastIndexOf c s)%Z.
Proof.
  induction s as [|a r IH]; simpl; [lia|].
  destruct (Z.leb_spec 0 (JsString.lastIndexOf c r)); [lia|].
  destruct (Ascii.eqb a c); lia.
Qed.

Lemma lastIndexOf_includes (c : ascii) (s : string) :
  (0 <=? JsString.lastIndexOf c s)%Z = JsString.includes c s.
Proof.
  induction s as [|a r IH]; simpl; [reflexivity|].
  rewrite <- IH.
  destruct (Z.leb_spec 0 (JsString.lastIndexOf c r)) as [H|H].
  - rewrite orb_true_r. apply Z.leb_le. lia.
  - rewrite orb_false_r. now destruct (Ascii.eqb a c).
Qed.

(** The name splits at its last dot: what [substring(0, lastIndexOf('.'))]
    keeps, the dot, and a rest that holds no further dot. *)
Lemma split_at_last (c : ascii) (s : string) :
  JsString.includes c s = true ->
  exists ext,
    s = JsString.substring0 (JsString.lastIndexOf c s) s ++ String c ext
    /\ JsString.includes c ext = false.
Proof.
  unfold JsString.substring0.
  induction s as [|a r IH]; simpl; [discriminate|].
  intros H.
  pose proof (lastIndexOf_includes c r) as L.
  destruct (Z.leb_spec 0 (JsString.lastIndexOf c r)) as [Hk|Hk].
  - symmetry in L. destruct (IH L) as [ext [E1 E2]].
    exists ext. split; [|exact E2].
    replace (Z.to_nat (JsString.lastIndexOf c r + 1))
      with (S (Z.to_nat (JsString.lastIndexOf c r))) by lia.
    simpl. now rewrite <- E1.
  - rewrite <- L in H. rewrite orb_false_r in H.
    rewrite H. simpl. apply Ascii.eqb_eq in H. subst a.
    exists r. split; [reflexivity|]. now rewrite <- L.
Qed.

Lemma baseName_no_dot (fileName : string) :
  JsString.includes "." fileName = false -> baseName fileName = fileName.
Proof. unfold baseName. now intros ->. Qed.

Lemma baseName_dot (fileName : string) :
  JsString.includes "." fileName = true ->
  exists ext,
    fileName = baseName fileName ++ "." ++ ext
    /\ JsString.includes "." ext = false.
Proof.
  intros H. unfold baseName. rewrite H. exact (split_at_last "." fileName H).
Qed.

(** ** The image test *)

Lemma upcase_empty (s : string) : JsString.upcase s = "" -> s = "".
Proof. destruct s; [reflexivity | discriminate]. Qed.

Lemma matches_lit (w s : string) (k : string -> bool) :
  RegExp.matches true (RegExp.lit w) s k = true <->
  exists s1 s2, s = s1 ++ s2
    /\ JsString.upcase s1 = JsString.upcase w /\ k s2 = true.
Proof.
  revert s. induction w as [|c w IH]; intros s; simpl.
  - split.
    + intros H. exists "", s. auto.
    + intros (s1 & s2 & -> & E & H). apply upcase_empty in E. now subst s1.
  - destruct s as [|a s'].
    + split; [discriminate|].
      intros (s1 & s2 & E & U & _). destruct s1; discriminate.
    + destruct (Ascii.eqb (JsString.upper a) (JsString.upper c)) eqn:Eac.
      * apply Ascii.eqb_eq in Eac. rewrite IH. split.
        -- intros (s1 & s2 & -> & U & H).
           exists (String a s1), s2. simpl. rewrite Eac, U. auto.
        -- intros (s1 & s2 & E & U & H).
           destruct s1 as [|b s1]; [discriminate|].
           simpl in E, U. injection E as -> ->. injection U as _ U.
           exists s1, s2. auto.
      * apply Ascii.eqb_neq in Eac. split; [discriminate|].
        intros (s1 & s2 & E & U & H).
        destruct s1 as [|b s1]; [discriminate|].
        simpl in E, U. injection E as -> ->. injection U as U _.
        contradiction.
Qed.

Lemma matches_end (s : string) :
  RegExp.matches true RegExp.End_ s (fun _ => true) = true <-> s = "".
Proof. destruct s; simpl; split; congruence. Qed.

Lemma matches_imageRegExp (s : string) :
  RegExp.matches true imageRegExp s (fun _ => true) = true <->
  exists ext, In ext extensions
    /\ JsString.upcase s = JsString.upcase ("." ++ ext).
Proof.
  unfold imageRegExp.
  change (RegExp.Char ".") with (RegExp.Char "."%char).
  destruct s as [|a s]; cbn [RegExp.matches].
  - split; [discriminate|]. intros (ext & _ & U). discriminate.
  - destruct (Ascii.eqb (RegExp.canonicalize true a)
                        (RegExp.canonicalize true ".")) eqn:Ea.
    + apply Ascii.eqb_eq in Ea. cbn [RegExp.canonicalize] in Ea.
      rewrite !orb_true_iff, !matches_lit.
      split.
      * intros H.
        assert (G : exists ext s1, In ext extensions
                      /\ s = s1 ++ "" /\ JsString.upcase s1 = JsString.upcase ext).
        { unfold extensions.
          repeat destruct H as [H|H];
            destruct H as (s1 & s2 & E & U & Hend);
            apply matches_end in Hend; subst s2;
            eexists; exists s1; (split; [|split; [exact E | exact U]]);
            simpl; tauto. }
        destruct G as (ext & s1 & Hin & E & U).
        exists ext. split; [exact Hin|].
        subst s. simpl. rewrite Ea. f_equal.
        clear -U. revert U. generalize (JsString.upcase ext).
        induction s1; simpl; intros u <-; [reflexivity|]. f_equal. now apply IHs1.
      * intros (ext & Hin & U). simpl in U. injection U as _ U.
        assert (G : exists s2, s = s ++ s2 /\ JsString.upcase s = JsString.upcase ext
                      /\ RegExp.matches true RegExp.End_ s2 (fun _ => true) = true).
        { exists "". repeat split; auto.
          clear. induction s; simpl; congruence. }
        destruct G as (s2 & E & U' & Hend).
        unfold extensions in Hin. simpl in Hin.
        repeat destruct Hin as [<-|Hin]; try contradiction.
        all: try (left; exists s, s2; now auto).
        all: try (right; left; exists s, s2; now auto).
        all: try (right; right; left; exists s, s2; now auto).
        all: try (right; right; right; left; exists s, s2; now auto).
        all: try (right; right; right; right; left; exists s, s2; now auto).
        all: try (right; right; right; right; right; exists s, s2; now auto).
    + apply Ascii.eqb_neq in Ea. cbn [RegExp.canonicalize] in Ea.
      split; [discriminate|].
      intros (ext & _ & U). simpl in U. injection U as U _. contradiction.
Qed.

Lemma test_suffix (r : RegExp.t) (s : string) :
  RegExp.test true r s = true <->
  exists pre suf, s = pre ++ suf
    /\ RegExp.matches true r suf (fun _ => true) = true.
Proof.
  induction s as [|a s IH]; simpl.
  - rewrite orb_false_r. split.
    + intros H. exists "", "". auto.
    + intros (pre & suf & E & H).
      destruct pre; [|discriminate]. simpl in E. now subst suf.
  - rewrite orb_true_iff, IH. split.
    + intros [H | (pre & suf & -> & H)].
      * exists "", (String a s). auto.
      * exists (String a pre), suf. auto.
    + intros (pre & suf & E & H). destruct pre as [|b pre]; simpl in E.
      * subst suf. now left.
      * injection E as -> ->. right. exists pre, suf. auto.
Qed.

(** The regular expression of line 184 accepts exactly the names that
    end with a dot and a listed extension, letter case apart. *)
Lemma isImage_iff (fileName : string) :
  isImage fileName = true <-> endsWithExtension fileName.
Proof.
  unfold isImage, endsWithExtension. rewrite test_suffix. split.
  - intros (pre & suf & E & H). apply matches_imageRegExp in H.
    destruct H as (ext & Hin & U). exists pre, suf, ext. auto.
  - intros (pre & suf & ext & E & Hin & U). exists pre, suf. split; [exact E|].
    apply matches_imageRegExp. exists ext. auto.
Qed.

Local Open Scope list_scope.

(* ================================================================== *)
(** * 13. The transform *)
(* ================================================================== *)




Lemma processImageWithPixel_eq (w : World) (blob : Blob) (tw th : float)
    (m : Machine) :
  processImageWithPixel w blob tw th m =
    (transformResult w (trace m) blob tw th,
     mkMachine (ui m) (locals m) (trace m ++ [EvTransform blob tw th])).
Proof.
  unfold processImageWithPixel, transformResult, bind, history, emit, throw, ret.
  simpl.
  destruct (decodeImage w (trace m) blob) as [[iw ih]|]; [|reflexivity].
  destruct (getContext2d w (trace m)); [|reflexivity].
  now destruct (encodes w (trace m) _).
Qed.

Lemma post_processImageWithPixel w blob tw th m Q :
  Q (transformResult w (trace m) blob tw th)
    (mkMachine (ui m) (locals m) (trace m ++ [EvTransform blob tw th])) ->
  post (processImageWithPixel w blob tw th) m Q.
Proof. unfold post. now rewrite processImageWithPixel_eq. Qed.

Lemma transformResult_Val w h blob tw th out :
  transformResult w h blob tw th = Val out ->
  exists iw ih,
    decodeImage w h blob = Some (iw, ih)
    /\ out = Canvas.toBlob "image/jpeg" jpegQuality
               (drawToCanvas (HTMLImage.mk blob iw ih) tw th).
Proof.
  unfold transformResult.
  destruct (decodeImage w h blob) as [[iw ih]|]; [|discriminate].
  destruct (getContext2d w h); [|discriminate].
  destruct (encodes w h _); [|discriminate].
  intros [= <-]. exists iw, ih. auto.
Qed.

Ltac mstep' :=
  lazymatch goal with
  | |- post (processImageWithPixel _ _ _ _) _ _ =>
      apply post_processImageWithPixel
  | _ => mstep
  end.

Ltac msteps' := repeat (mstep'; msimpl).

#[local] Set Warnings "-inexact-float".

(** ** C2 *)


(* ================================================================== *)
(** * 14. One attachment *)
(* ================================================================== *)

Lemma with_logs_id (u : UI) : u = with_logs (fun _ => logs u) u.
Proof. now destruct u. Qed.

Lemma with_logs_with_logs f g (u : UI) :
  with_logs f (with_logs g u) = with_logs (fun l => f (g l)) u.
Proof. reflexivity. Qed.

Lemma attachmentFrame_refl w tw th m : attachmentFrame w tw th [] m m.
Proof.
  split; try reflexivity.
  - exists (logs (ui m)). apply with_logs_id.
  - exists []. rewrite app_nil_r. auto.
  - exists []. rewrite app_nil_r. auto.
Qed.

Lemma attachmentFrame_trans w tw th l1 l2 m1 m2 m3 :
  attachmentFrame w tw th l1 m1 m2 -> attachmentFrame w tw th l2 m2 m3 ->
  attachmentFrame w tw th (l1 ++ l2) m1 m3.
Proof.
  intros [[lg1 U1] S1 K1 F1 (fs1 & P1 & L1 & A1) (e1 & T1 & E1)]
         [[lg2 U2] S2 K2 F2 (fs2 & P2 & L2 & A2) (e2 & T2 & E2)].
  split; try congruence.
  - exists lg2. rewrite U2, U1. reflexivity.
  - exists (fs1 ++ fs2). rewrite P2, P1, <- app_assoc. split; [reflexivity|].
    split; [rewrite !length_app; lia|].
    apply Forall_app. split.
    + eapply Forall_impl; [|exact A1]. intros f (a & Ha & Hf).
      exists a. split; [apply in_or_app; now left | exact Hf].
    + eapply Forall_impl; [|exact A2]. intros f (a & Ha & Hf).
      exists a. split; [apply in_or_app; now right | exact Hf].
  - exists (e1 ++ e2). rewrite T2, T1, <- app_assoc. split; [reflexivity|].
    apply Forall_app. auto.
Qed.

Ltac frame_ui :=
  match goal with
  | |- exists lg, _ = with_logs (fun _ => lg) ?u =>
      unfold pushLog; rewrite ?with_logs_with_logs; eexists; reflexivity
  end.

(** The body of the inner loop never throws, and stays within the
    frame. *)
Ltac frame_trace :=
  lazymatch goal with
  | |- exists evs, _ = _ /\ Forall (attachmentEvent _ _) evs =>
      cbn [trace]; rewrite <- ?app_assoc;
      first [ exists []; rewrite app_nil_r; split; [reflexivity | constructor]
            | eexists; split; [reflexivity | repeat constructor] ]
  end.

Ltac frame_no_file :=
  lazymatch goal with
  | |- exists fs, _ = _ /\ _ <= _ /\ Forall _ fs =>
      exists []; rewrite app_nil_r; simpl; now auto
  end.

Lemma processAttachment_frame w tw th a url m :
  post (processAttachment w tw th a url) m
    (fun r m' => r = Val tt /\ attachmentFrame w tw th [a] m m').
Proof.
  unfold processAttachment. msteps'.
  all: split; [reflexivity|].
  all: split; cbn [ui locals successCount skipCount failCount processedFiles];
    try reflexivity; try frame_ui; try frame_trace; try frame_no_file.
  match goal with H : transformResult _ _ _ _ _ = Val _ |- _ =>
    apply transformResult_Val in H; destruct H as (iw & ih & _ & ->) end.
  eexists. split; [reflexivity|]. split; [simpl; lia|].
  constructor; [|constructor].
  exists a. split; [now left|].
  split; [reflexivity|]. split; [reflexivity|].
  eexists; eexists; eexists; reflexivity.
Qed.



(** A download that throws. *)
Lemma processAttachment_fetch_throws w tw th a url m e :
  isImage (fileNameOf a) = true ->
  fetch w (trace m) url = Exn e ->
  processAttachment w tw th a url m =
    (Val tt,
     failedAttachment a e (downloading a (ui m)) (locals m)
       (trace m ++ [EvFetch url])).
Proof.
  intros H F. unfold processAttachment, try_catch, bind, call, addLog, modifyUI.
  cbv zeta. rewrite H. simpl. now rewrite F.
Qed.


(** A body that cannot be read. *)
Lemma processAttachment_blob_throws w tw th a url m response e :
  isImage (fileNameOf a) = true ->
  fetch w (trace m) url = Val response ->
  Response.ok response = true ->
  Response.blob response = Exn e ->
  processAttachment w tw th a url m =
    (Val tt,
     failedAttachment a e (downloading a (ui m)) (locals m)
       (trace m ++ [EvFetch url])).
Proof.
  intros H F K B.
  unfold processAttachment, try_catch, bind, call, lift, addLog, modifyUI.
  cbv zeta. rewrite H. simpl. rewrite F, K. simpl. rewrite B. reflexivity.
Qed.



(** ** The inner loop *)

Lemma attachmentsLoop_frame w tw th urls l : forall j m,
  post (attachmentsLoop w tw th urls j l) m
    (fun r m' => r = Val tt /\ attachmentFrame w tw th l m m').
Proof.
  induction l as [|a l IH]; intros j m; simpl.
  - apply post_ret. split; [reflexivity | apply attachmentFrame_refl].
  - apply post_bind.
    eapply post_mono; [apply processAttachment_frame|].
    intros r m1 [-> F1]. cbv beta iota.
    eapply post_mono; [apply IH|].
    intros r m2 [-> F2]. split; [reflexivity|].
    exact (attachmentFrame_trans _ _ _ [a] l _ _ _ F1 F2).
Qed.


(* ================================================================== *)
(** * 15. One record *)
(* ================================================================== *)

(** Lines 214-228, case by case. *)
Lemma submit_no_file w u i recordId m :
  processedFiles (locals m) = [] ->
  submitProcessedFiles w u i recordId m =
    (Val tt,
     mkMachine (pushLog (mkLog (row i ++ "无有效图片可处理") info) (ui m))
       (countSkip (locals m)) (trace m)).
Proof.
  intros E. unfold submitProcessedFiles, bind, getLocals. simpl.
  rewrite E. reflexivity.
Qed.

Lemma nonempty_length {A} (l : list A) : l <> [] -> (0 <? List.length l)%nat = true.
Proof. destruct l; [congruence | reflexivity]. Qed.

Lemma submit_call w u i recordId m :
  processedFiles (locals m) <> [] ->
  let files := processedFiles (locals m) in
  let m1 := mkMachine (uploading (List.length files) (ui m)) (locals m)
              (trace m ++ [EvSetValue (selectedTargetFieldId u) recordId files]) in
  submitProcessedFiles w u i recordId m =
    match setValue w (trace m) (selectedTargetFieldId u) recordId files with
    | Val true =>
        (Val tt,
         mkMachine (pushLog (mkLog (row i ++ "处理成功") success) (ui m1))
           (countSuccess (locals m)) (trace m1))
    | Val false =>
        (Val tt,
         mkMachine
           (pushLog (mkLog (row i ++ "设置失败 (SDK 返回 false)") error) (ui m1))
           (countFail (locals m)) (trace m1))
    | Exn e => (Exn e, m1)
    end.
Proof.
  intros N. cbv zeta.
  unfold submitProcessedFiles, bind, getLocals, call, addLog, modifyUI. simpl.
  rewrite (nonempty_length _ N). simpl.
  now destruct (setValue w (trace m) (selectedTargetFieldId u) recordId
                  (processedFiles (locals m))) as [[|]|e].
Qed.

Lemma processRecord_eq w u total i recordId m :
  processRecord w u total i recordId m =
    let m0 := mkMachine (withProgress (mkProgress (i + 1) total) (ui m))
                (locals m)
                (trace m ++ [EvSetProgress (mkProgress (i + 1) total)]) in
    match recordBody w u i recordId m0 with
    | (Val a, m') => (Val a, m')
    | (Exn e, m') => (Val tt, recordFailed i e m')
    end.
Proof.
  unfold processRecord, bind, try_catch, setProgress, modifyUI, emit. simpl.
  destruct (recordBody w u i recordId _) as [[a|e] m']; reflexivity.
Qed.

Lemma attachmentEvent_inner u e :
  attachmentEvent (targetWidth u) (targetHeight u) e -> innerEvent u e.
Proof. destruct e; simpl; tauto. Qed.

Ltac mloop :=
  lazymatch goal with
  | |- post (attachmentsLoop _ _ _ _ _ _) _ _ =>
      eapply post_mono; [apply attachmentsLoop_frame|];
      let m' := fresh "m'" in
      intros ? m' [-> [[? ?] ? ? ? (? & ? & ? & ?) (? & ? & ?)]];
      cbv beta iota;
      cbn [ui locals trace successCount skipCount failCount processedFiles
           withProcessedFiles] in *
  end.

Ltac mrun :=
  repeat (first [mloop | mstep']; msimpl).

Ltac frame_ui' :=
  lazymatch goal with
  | |- exists lg, _ = with_logs (fun _ => lg) _ =>
      unfold pushLog, uploading;
      repeat match goal with H : ui _ = _ |- _ => rewrite H end;
      rewrite ?with_logs_with_logs; eexists; reflexivity
  end.

Ltac frame_trace' :=
  lazymatch goal with
  | |- exists evs, _ = _ /\ Forall (innerEvent _) evs =>
      cbn [trace];
      repeat match goal with H : trace _ = _ |- _ => rewrite H end;
      rewrite <- ?app_assoc; cbn [app];
      eexists; split; [reflexivity|];
      repeat first [ apply Forall_nil
                   | apply Forall_cons; [exact I|]
                   | apply Forall_app; split
                   | (eapply Forall_impl; [|eassumption]);
                     intros ?; apply attachmentEvent_inner ]
  end.

Ltac frame_counts :=
  lazymatch goal with
  | |- oneCounted _ _ =>
      unfold oneCounted, outcomeSuccess, outcomeSkipped, outcomeFailed,
        countSkip, countFail, countSuccess, withProcessedFiles;
      cbn [locals successCount skipCount failCount];
      repeat match goal with
             | H : successCount _ = _ |- _ => rewrite H
             | H : skipCount _ = _ |- _ => rewrite H
             | H : failCount _ = _ |- _ => rewrite H
             end;
      cbn [locals successCount skipCount failCount]; tauto
  end.

(** An iteration of the outer loop never throws: whatever its record
    does, it ends with exactly one counter raised. *)
Lemma processRecord_frame w u total i recordId m :
  post (processRecord w u total i recordId) m
    (fun r m' => r = Val tt /\ recordFrame u total i recordId m m').
Proof.
  unfold processRecord, recordBody, submitProcessedFiles. mrun.
  all: split; [reflexivity|].
  all: split; cbn [ui locals]; [frame_ui' | frame_counts | frame_trace'].
Qed.

(* ================================================================== *)
(** * 16. The batch *)
(* ================================================================== *)

Lemma innerEvent_not_key u e : innerEvent u e -> isKey e = false.
Proof. destruct e; simpl; tauto. Qed.

Lemma filter_inner u evs :
  Forall (innerEvent u) evs -> filter isKey evs = [].
Proof.
  induction 1 as [|e evs He _ IH]; simpl; [reflexivity|].
  now rewrite (innerEvent_not_key u e He).
Qed.

Lemma withProgress_id (u : UI) : withProgress (progress u) u = u.
Proof. now destruct u. Qed.

Lemma loopFrame_nil u total i m : loopFrame u total i [] m m.
Proof.
  split; simpl; try lia.
  - exists (logs (ui m)). rewrite withProgress_id. apply with_logs_id.
  - exists []. rewrite app_nil_r. auto.
Qed.

Lemma loopFrame_cons u total i recordId rest m1 m2 m3 :
  recordFrame u total i recordId m1 m2 ->
  loopFrame u total (S i) rest m2 m3 ->
  loopFrame u total i (recordId :: rest) m1 m3.
Proof.
  intros [[lg1 U1] C1 (e1 & T1 & I1)] [[lg2 U2] S2 M2 (e2 & T2 & K2 & I2)].
  split.
  - exists lg2. rewrite U2, U1. destruct (ui m1).
    unfold with_logs, withProgress, loopProgress.
    cbn [isConverting statusMsg progress logs selectedSourceFieldId
         selectedTargetFieldId targetWidth targetHeight].
    destruct rest as [|r rest]; cbn [List.length]; do 2 f_equal; lia.
  - simpl. unfold oneCounted, outcomeSuccess, outcomeSkipped, outcomeFailed in C1.
    lia.
  - unfold oneCounted, outcomeSuccess, outcomeSkipped, outcomeFailed in C1. lia.
  - exists (EvSetProgress (mkProgress (i + 1) total)
              :: EvGetValue (selectedSourceFieldId u) recordId :: e1 ++ e2).
    rewrite T2, T1, <- app_assoc. split; [reflexivity|]. split.
    + simpl. rewrite filter_app, (filter_inner u e1 I1), K2. reflexivity.
    + constructor; [now left|]. constructor; [now left|].
      apply Forall_app. split; [|exact I2].
      eapply Forall_impl; [|exact I1]. intros e He. now right.
Qed.

(** The outer loop never throws and visits every record, in order. *)
Lemma recordsLoop_frame w u total recordIds : forall i m,
  post (recordsLoop w u total i recordIds) m
    (fun r m' => r = Val tt /\ loopFrame u total i recordIds m m').
Proof.
  induction recordIds as [|recordId rest IH]; intros i m; simpl.
  - apply post_ret. split; [reflexivity | apply loopFrame_nil].
  - apply post_bind.
    eapply post_mono; [apply processRecord_frame|].
    intros r m1 [-> F1]. cbv beta iota.
    eapply post_mono; [apply IH|].
    intros r m2 [-> F2]. split; [reflexivity|].
    exact (loopFrame_cons _ _ _ _ _ _ _ _ F1 F2).
Qed.

Lemma recordsLoop_returns w u total i recordIds m :
  fst (recordsLoop w u total i recordIds m) = Val tt.
Proof. exact (proj1 (recordsLoop_frame w u total recordIds i m)). Qed.

Lemma post_recordsLoop w u total i recordIds m Q :
  Q (Val tt) (snd (recordsLoop w u total i recordIds m)) ->
  post (recordsLoop w u total i recordIds) m Q.
Proof. unfold post. now rewrite recordsLoop_returns. Qed.

(** ** What the host answers before the loop *)

(** [handleConvert], outcome by outcome. *)
Lemma handleConvert_cases (w : World) (m : Machine) :
  handleConvert w m =
    (Val tt,
     match preamble w m with
     | NoSelection =>
         mkMachine (withStatusMsg "请先选择源字段和目标字段" (ui m))
           (locals m) (trace m)
     | HostFailed e evs => aborted m e evs
     | NoRecords =>
         aborted m "当前表格没有记录" [EvGetActiveTable; EvGetRecordIdList]
     | Ready recordIds =>
         completed
           (snd (recordsLoop w (ui m) (List.length recordIds) 0 recordIds
                   (atLoop m recordIds)))
     end).
Proof.
  apply post_eq.
  unfold handleConvert, convertBody, preamble. mstep. msimpl. mstep. msimpl.
  destruct (isEmpty (selectedSourceFieldId (ui m))
            || isEmpty (selectedTargetFieldId (ui m)))%bool eqn:Hsel.
  - msteps. reflexivity.
  - repeat (first [ apply post_recordsLoop | mstep ]; msimpl).
    all: rewrite <- ?app_assoc in *; cbn [app] in *.
    all: repeat match goal with H : _ = _ |- _ => rewrite H end.
    all: try reflexivity.
    all: unfold aborted, completed, atLoop; cbn [app];
      rewrite <- ?app_assoc; reflexivity.
Qed.

(* ================================================================== *)
(** * 17. The claims about one attachment *)
(* ================================================================== *)



(** ** C3 *)

Local Open Scope string_scope.

(** C3 (amended).  The name of an output file is a base name, ["_"],
    the target width, ["x"], the target height and [".jpg"], and the
    file has the type image/jpeg whatever the source was.  The base
    name comes from the name of the attachment: a name with a dot gives
    what stands before its last dot, a name without a dot is taken
    whole, but an attachment without a name is handled as [image.jpg]
    (line 183), so its base name is [image], not the empty name.  The
    two dimensions are printed as a template literal prints a number;
    for an integer below 2^53 these are its decimal digits, and for
    such targets the name is a function of the attachment's name and
    the two integers alone: neither the host nor the history has a part
    in it. *)
Theorem newFileName_derivation :
  forall (w : World) (a : Attachment.t) (tw th : float),
    let name := Attachment.name a in
    let base := baseName (fileNameOf a) in
    let derived := newFileName (str w) (fileNameOf a) tw th in
    (name = "" -> base = "image")
    /\ (name <> "" -> JsString.includes "." name = false -> base = name)
    /\ (name <> "" -> JsString.includes "." name = true ->
        exists ext,
          name = base ++ "." ++ ext /\ JsString.includes "." ext = false)
    /\ (forall W H : Z,
          Number.to_integer tw = Some W -> (Z.abs W < 2 ^ 53)%Z ->
          Number.to_integer th = Some H -> (Z.abs H < 2 ^ 53)%Z ->
          derived
          = base ++ "_" ++ Number.string_of_Z W ++ "x" ++ Number.string_of_Z H
              ++ ".jpg"
          /\ forall (w' : World) (a' : Attachment.t) (tw' th' : float),
               Attachment.name a' = name ->
               Number.to_integer tw' = Some W ->
               Number.to_integer th' = Some H ->
               newFileName (str w') (fileNameOf a') tw' th' = derived)
    /\ derived = base ++ "_" ++ str w tw ++ "x" ++ str w th ++ ".jpg"
    /\ (forall (url : option string) (m : Machine),
          let before := processedFiles (locals m) in
          let after :=
            processedFiles (locals (snd (processAttachment w tw th a url m))) in
          after = before
          \/ exists out,
               after = (before ++ [File.mk [out] derived "image/jpeg"])%list).
Proof.
  intros w a tw th name base derived.
  assert (F : name <> "" -> fileNameOf a = name).
  { unfold fileNameOf. fold name. destruct name; [congruence | reflexivity]. }
  split; [|split; [|split; [|split; [|split; [reflexivity|]]]]].
  - intros Hn. subst base. unfold fileNameOf. fold name. now rewrite Hn.
  - intros Hn Hd. subst base. rewrite (F Hn). now apply baseName_no_dot.
  - intros Hn Hd. subst base. rewrite (F Hn). now apply baseName_dot.
  - intros W H HW RW HH RH.
    assert (E : forall (w' : World) (a' : Attachment.t) (tw' th' : float),
               Attachment.name a' = name ->
               Number.to_integer tw' = Some W ->
               Number.to_integer th' = Some H ->
               newFileName (str w') (fileNameOf a') tw' th'
               = base ++ "_" ++ Number.string_of_Z W ++ "x"
                   ++ Number.string_of_Z H ++ ".jpg").
    { intros w' a' tw' th' Hn HW' HH'. unfold newFileName, str.
      rewrite (toString_integer _ tw' W HW' RW),
              (toString_integer _ th' H HH' RH).
      unfold fileNameOf. rewrite Hn. reflexivity. }
    split; [now apply E|].
    intros w' a' tw' th' Hn HW' HH'. subst derived.
    rewrite (E w a tw th eq_refl HW HH). now apply E.
  - intros url m. cbv zeta.
    destruct (processAttachment_frame w tw th a url m) as [_ Fr].
    destruct (af_files _ _ _ _ _ _ Fr) as (fs & Ef & L & P).
    rewrite Ef. destruct fs as [|f [|g fs]].
    + left. now rewrite app_nil_r.
    + right.
      inversion P as [|? ? (a' & [<-|[]] & Hn & Ht & (b & iw & ih & Hb)) _].
      subst. destruct f as [bits fname type]. simpl in *. subst.
      eexists. reflexivity.
    + simpl in L. lia.
Qed.

(** Witness of C3: [photo.png], [README] and an attachment without a
    name, at 100 x 100. *)
Lemma newFileName_derivation_witness :
  newFileName (str threeRecords) (fileNameOf (Attachment.mk "t1" "photo.png"))
    100%float 100%float
    = "photo_100x100.jpg"
  /\ (exists ext,
        "photo.png" = "photo" ++ "." ++ ext
        /\ JsString.includes "." ext = false)
  /\ baseName (fileNameOf (Attachment.mk "t2" "README")) = "README"
  /\ baseName (fileNameOf (Attachment.mk "t3" "")) = "image".
Proof.
  split; [|split; [|split]].
  - apply (proj1 (proj2 (proj2 (proj2
             (newFileName_derivation threeRecords
                (Attachment.mk "t1" "photo.png") 100%float 100%float))))
             100%Z 100%Z); reflexivity.
  - apply (proj1 (proj2 (proj2
             (newFileName_derivation threeRecords
                (Attachment.mk "t1" "photo.png") 100%float 100%float))));
      [discriminate | reflexivity].
  - apply (proj1 (proj2
             (newFileName_derivation threeRecords
                (Attachment.mk "t2" "README") 100%float 100%float)));
      [discriminate | reflexivity].
  - exact (proj1
             (newFileName_derivation threeRecords
                (Attachment.mk "t3" "") 100%float 100%float) eq_refl).
Defined.

(** C3, as stated, fails for an attachment without a name.  The empty
    name has no dot, so the rule of the claim takes it whole and gives
    [_100x100.jpg]; the file the run writes is named
    [image_100x100.jpg]. *)
Lemma unnamed_attachment_is_named_image :
  getValue unnamedAttachment
    [EvGetActiveTable; EvGetRecordIdList; EvSetProgress (mkProgress 0 1);
     EvGetField "fldA"; EvGetField "fldB"; EvSetProgress (mkProgress 1 1)]
    "fldA" "r1"
  = Val (Some [Attachment.mk "t1" ""])
  /\ JsString.includes "." "" = false
  /\ (exists out,
        In (EvSetValue "fldB" "r1"
              [File.mk [out] "image_100x100.jpg" "image/jpeg"])
           (trace (snd (handleConvert unnamedAttachment ready100))))
  /\ String.eqb "image_100x100.jpg" ("" ++ "_100x100.jpg") = false.
Proof.
  split; [reflexivity|]. split; [reflexivity|].
  split; [|reflexivity].
  eexists. vm_compute. do 10 right. left. reflexivity.
Qed.

Local Open Scope list_scope.

(* ================================================================== *)
(** * 18. The claims about one record *)
(* ================================================================== *)

Lemma attachmentsLoop_returns w tw th urls j l m :
  fst (attachmentsLoop w tw th urls j l m) = Val tt.
Proof. exact (proj1 (attachmentsLoop_frame w tw th urls l j m)). Qed.

(** A record whose cell holds no attachment. *)
Lemma processRecord_no_attachment w u total i recordId m :
  let p := EvSetProgress (mkProgress (i + 1) total) in
  let cell := getValue w (trace m ++ [p]) (selectedSourceFieldId u) recordId in
  cell = Val None \/ cell = Val (Some []) ->
  processRecord w u total i recordId m =
    (Val tt,
     mkMachine
       (pushLog (mkLog (row i ++ "未找到附件") info)
          (withProgress (mkProgress (i + 1) total) (ui m)))
       (countSkip (locals m))
       (trace m ++ [p; EvGetValue (selectedSourceFieldId u) recordId])).
Proof.
  cbv zeta. intros H. rewrite processRecord_eq. cbv zeta.
  unfold recordBody, bind, call, addLog, incrSkip, modifyUI, modifyLocals.
  cbn [ui locals trace]. rewrite <- app_assoc. cbn [app].
  destruct H as [-> | ->]; reflexivity.
Qed.

(** A record whose cell cannot be read. *)
Lemma processRecord_read_throws w u total i recordId m e :
  let p := EvSetProgress (mkProgress (i + 1) total) in
  getValue w (trace m ++ [p]) (selectedSourceFieldId u) recordId = Exn e ->
  processRecord w u total i recordId m =
    (Val tt,
     recordFailed i e
       (mkMachine (withProgress (mkProgress (i + 1) total) (ui m)) (locals m)
          (trace m ++ [p; EvGetValue (selectedSourceFieldId u) recordId]))).
Proof.
  cbv zeta. intros H. rewrite processRecord_eq. cbv zeta.
  unfold recordBody, bind, call. cbn [ui locals trace].
  rewrite H, <- app_assoc. reflexivity.
Qed.

(** A record with attachments whose URLs resolve: the inner loop runs
    to its end, and lines 214-228 decide, under the per-record [catch]. *)
Lemma processRecord_attachments w u total i recordId m attachmentList urls :
  let p := EvSetProgress (mkProgress (i + 1) total) in
  let src := selectedSourceFieldId u in
  getValue w (trace m ++ [p]) src recordId = Val (Some attachmentList) ->
  attachmentList <> [] ->
  getCellAttachmentUrls w (trace m ++ [p; EvGetValue src recordId])
    (map Attachment.token attachmentList) src recordId = Val urls ->
  processRecord w u total i recordId m =
    match submitProcessedFiles w u i recordId
            (afterAttachments w u total i recordId attachmentList urls m) with
    | (Val a, m') => (Val a, m')
    | (Exn e, m') => (Val tt, recordFailed i e m')
    end.
Proof.
  cbv zeta. intros Hcell Hne Hurls. rewrite processRecord_eq. cbv zeta.
  unfold recordBody. unfold bind at 1. unfold call at 1.
  cbn [ui locals trace]. rewrite Hcell.
  destruct attachmentList as [|a l]; [congruence|].
  unfold bind at 1. unfold addLog at 1. unfold modifyUI at 1.
  unfold bind at 1. unfold setProcessedFiles, modifyLocals.
  unfold bind at 1. unfold call at 1.
  cbn [ui locals trace]. rewrite <- app_assoc. cbn [app]. rewrite Hurls.
  unfold bind at 1.
  unfold afterAttachments, beforeAttachments.
  rewrite <- !app_assoc. cbn [app].
  match goal with
  | |- context [attachmentsLoop ?w ?tw ?th ?urls ?j ?l ?m] =>
      pose proof (attachmentsLoop_returns w tw th urls j l m) as R;
      destruct (attachmentsLoop w tw th urls j l m) as [r m2]
  end.
  cbn [fst snd] in *. subst r. reflexivity.
Qed.

Lemma hd_pushLog (entry : LogEntry) (u : UI) :
  hd_error (logs (pushLog entry u)) = Some entry.
Proof. reflexivity. Qed.

(** The counters are as the inner loop found them. *)
Lemma afterAttachments_counts w u total i recordId attachmentList urls m :
  let m2 := afterAttachments w u total i recordId attachmentList urls m in
  successCount (locals m2) = successCount (locals m)
  /\ skipCount (locals m2) = skipCount (locals m)
  /\ failCount (locals m2) = failCount (locals m).
Proof.
  cbv zeta. unfold afterAttachments.
  destruct (attachmentsLoop_frame w (targetWidth u) (targetHeight u) urls
              attachmentList 0
              (beforeAttachments u total i recordId attachmentList m))
    as [_ [_ S K F _ _]].
  rewrite S, K, F. auto.
Qed.

Local Open Scope string_scope.

(** ** C7 *)






Local Open Scope list_scope.

(** ** C4 *)

(** C4.  The outcome of a record.  An empty or absent attachment list:
    skipped (the skip count goes up by one, the other two stay).  At
    least one processed file: the whole list of processed files is
    handed to the destination field in a single call; an acknowledgement
    [true] makes the record a success, an acknowledgement [false] a
    failure whose log line says that the write returned [false].  No
    processed file (nothing was an image, or everything failed):
    skipped, and the destination is not called. *)
Theorem record_outcome :
  forall (w : World) (u : UI) (total i : nat) (recordId : string)
         (m : Machine),
    let src := selectedSourceFieldId u in
    let tgt := selectedTargetFieldId u in
    let p := EvSetProgress (mkProgress (i + 1) total) in
    let cell := getValue w (trace m ++ [p]) src recordId in
    let m' := snd (processRecord w u total i recordId m) in
    ((cell = Val None \/ cell = Val (Some [])) ->
       outcomeSkipped (locals m) (locals m')
       /\ hd_error (logs (ui m')) = Some (mkLog (row i ++ "未找到附件") info)
       /\ trace m' = trace m ++ [p; EvGetValue src recordId])
    /\ (forall attachmentList urls,
          cell = Val (Some attachmentList) -> attachmentList <> [] ->
          getCellAttachmentUrls w (trace m ++ [p; EvGetValue src recordId])
            (map Attachment.token attachmentList) src recordId = Val urls ->
          let m2 := afterAttachments w u total i recordId attachmentList urls m in
          let files := processedFiles (locals m2) in
          (files = [] ->
             outcomeSkipped (locals m) (locals m')
             /\ hd_error (logs (ui m'))
                = Some (mkLog (row i ++ "无有效图片可处理") info)
             /\ trace m' = trace m2)
          /\ (files <> [] ->
              setValue w (trace m2) tgt recordId files = Val true ->
              outcomeSuccess (locals m) (locals m')
              /\ hd_error (logs (ui m'))
                 = Some (mkLog (row i ++ "处理成功") success)
              /\ trace m' = trace m2 ++ [EvSetValue tgt recordId files])
          /\ (files <> [] ->
              setValue w (trace m2) tgt recordId files = Val false ->
              outcomeFailed (locals m) (locals m')
              /\ hd_error (logs (ui m'))
                 = Some (mkLog (row i ++ "设置失败 (SDK 返回 false)") error)
              /\ trace m' = trace m2 ++ [EvSetValue tgt recordId files])).
Proof.
  intros w u total i recordId m src tgt p cell m'. split.
  - intros H. subst m'.
    rewrite (processRecord_no_attachment w u total i recordId m H).
    cbn [snd ui locals trace]. repeat split; reflexivity.
  - intros attachmentList urls Hcell Hne Hurls m2 files.
    pose proof (afterAttachments_counts w u total i recordId attachmentList urls m)
      as (S & K & F). fold m2 in S, K, F.
    subst m'.
    rewrite (processRecord_attachments w u total i recordId m attachmentList urls
               Hcell Hne Hurls).
    fold m2. split; [|split].
    + intros E. rewrite (submit_no_file w u i recordId m2 E).
      cbn [snd ui locals trace]. unfold outcomeSkipped, countSkip.
      cbn [successCount skipCount failCount]. rewrite S, K, F.
      repeat split; reflexivity.
    + intros N A. rewrite (submit_call w u i recordId m2 N).
      fold files. fold tgt. rewrite A.
      cbn [snd ui locals trace]. unfold outcomeSuccess, countSuccess.
      cbn [successCount skipCount failCount]. rewrite S, K, F.
      repeat split; reflexivity.
    + intros N A. rewrite (submit_call w u i recordId m2 N).
      fold files. fold tgt. rewrite A.
      cbn [snd ui locals trace]. unfold outcomeFailed, countFail.
      cbn [successCount skipCount failCount]. rewrite S, K, F.
      repeat split; reflexivity.
Qed.

(** Witness of C4: an empty cell is skipped, and a write that is not
    acknowledged makes the record a failure. *)
Lemma record_outcome_witness :
  outcomeSkipped (locals ready100)
    (locals (snd (processRecord threeRecords (ui ready100) 3 1 "r2" ready100)))
  /\ outcomeFailed (locals ready100)
       (locals (snd (processRecord writeRejected (ui ready100) 1 0 "r1" ready100))).
Proof.
  split.
  - apply (proj1 (record_outcome threeRecords (ui ready100) 3 1 "r2" ready100)).
    right. reflexivity.
  - apply (proj2 (record_outcome writeRejected (ui ready100) 1 0 "r1" ready100)
             [Attachment.mk "t1" "a.png"] ["https://files/t1"]
             eq_refl ltac:(discriminate) eq_refl).
    + intros E. vm_compute in E. discriminate.
    + reflexivity.
Defined.

(** ** C5 *)

Lemma length_pos_nonempty {A} (l : list A) :
  (0 <? List.length l)%nat = true -> l <> [].
Proof. destruct l; [discriminate | congruence]. Qed.







(* ================================================================== *)
(** * 19. The claims about the batch *)
(* ================================================================== *)

Lemma flat_map_filter_key {B} (f : Event -> list B) (evs : list Event) :
  (forall e, isKey e = false -> f e = []) ->
  flat_map f evs = flat_map f (filter isKey evs).
Proof.
  intros H. induction evs as [|e evs IH]; simpl; [reflexivity|].
  destruct (isKey e) eqn:K; simpl; rewrite IH; [reflexivity|].
  now rewrite (H e K).
Qed.

Lemma getValueCalls_filter evs :
  getValueCalls evs = getValueCalls (filter isKey evs).
Proof. apply flat_map_filter_key. now intros []. Qed.

Lemma progressUpdates_filter evs :
  progressUpdates evs = progressUpdates (filter isKey evs).
Proof. apply flat_map_filter_key. now intros []. Qed.

Lemma getValueCalls_openings u total recordIds : forall i,
  getValueCalls (openings u total i recordIds) = recordIds.
Proof.
  induction recordIds as [|r rest IH]; intros i; simpl; [reflexivity|].
  f_equal. apply IH.
Qed.

Lemma progressUpdates_openings u total recordIds : forall i,
  progressUpdates (openings u total i recordIds)
  = map (fun k => mkProgress k total) (seq (S i) (List.length recordIds)).
Proof.
  induction recordIds as [|r rest IH]; intros i; simpl; [reflexivity|].
  rewrite Nat.add_1_r. f_equal. apply IH.
Qed.

(** The loop of a run that got past its preamble. *)
Lemma ready_loop w m recordIds :
  loopFrame (ui m) (List.length recordIds) 0 recordIds
    (atLoop m recordIds)
    (snd (recordsLoop w (ui m) (List.length recordIds) 0 recordIds
            (atLoop m recordIds))).
Proof. exact (proj2 (recordsLoop_frame w (ui m) _ recordIds 0 (atLoop m recordIds))). Qed.

Lemma preamble_HostFailed w m e evs :
  preamble w m = HostFailed e evs -> Forall preambleEvent evs.
Proof.
  unfold preamble.
  destruct (isEmpty _ || isEmpty _)%bool; [discriminate|].
  destruct (getActiveTable w (trace m)) as [[]|e1];
    [|intros [= <- <-]; repeat constructor].
  destruct (getRecordIdList w _) as [rs|e2];
    [|intros [= <- <-]; repeat constructor].
  destruct (List.length rs =? 0)%nat; [discriminate|].
  cbv zeta.
  destruct (getField w _ (selectedSourceFieldId (ui m))) as [[]|e3];
    [|intros [= <- <-]; repeat constructor].
  destruct (getField w _ (selectedTargetFieldId (ui m))) as [[]|e4];
    [discriminate | intros [= <- <-]; repeat constructor].
Qed.

Lemma preamble_Ready_nonempty w m recordIds :
  preamble w m = Ready recordIds -> recordIds <> [].
Proof.
  unfold preamble.
  destruct (isEmpty _ || isEmpty _)%bool; [discriminate|].
  destruct (getActiveTable w (trace m)) as [[]|e1]; [|discriminate].
  destruct (getRecordIdList w _) as [rs|e2]; [|discriminate].
  destruct (List.length rs =? 0)%nat eqn:L; [discriminate|].
  cbv zeta.
  destruct (getField w _ (selectedSourceFieldId (ui m))) as [[]|e3];
    [|discriminate].
  destruct (getField w _ (selectedTargetFieldId (ui m))) as [[]|e4];
    [|discriminate].
  intros [= <-] ->. discriminate.
Qed.

Lemma getValueCalls_preamble evs :
  Forall preambleEvent evs -> getValueCalls evs = [].
Proof.
  induction 1 as [|e evs He _ IH]; simpl; [reflexivity|].
  rewrite IH. now destruct e.
Qed.

Lemma getValueCalls_app a b :
  getValueCalls (a ++ b) = getValueCalls a ++ getValueCalls b.
Proof. apply flat_map_app. Qed.

Lemma progressUpdates_app a b :
  progressUpdates (a ++ b) = progressUpdates a ++ progressUpdates b.
Proof. apply flat_map_app. Qed.

Lemma getValueCalls_keys u total recordIds p q :
  getValueCalls
    (EvSetProgress p :: openings u total 0 recordIds ++ [EvSetProgress q])
  = recordIds.
Proof.
  change (EvSetProgress p :: openings u total 0 recordIds ++ [EvSetProgress q])
    with ([EvSetProgress p] ++ openings u total 0 recordIds ++ [EvSetProgress q]).
  rewrite !getValueCalls_app, getValueCalls_openings. simpl.
  apply app_nil_r.
Qed.

(** The trace of a run that got past its preamble. *)
Lemma handleConvert_ready w m recordIds :
  preamble w m = Ready recordIds ->
  let n := List.length recordIds in
  let m' := snd (handleConvert w m) in
  exists evs,
    trace m' = trace m ++ evs
    /\ filter isKey evs =
         EvSetProgress (mkProgress 0 n)
         :: openings (ui m) n 0 recordIds ++ [EvSetProgress (mkProgress 0 0)]
    /\ Forall (fun e => isKey e = true \/ preambleEvent e \/ innerEvent (ui m) e) evs.
Proof.
  intros P n m'. subst m'. rewrite handleConvert_cases, P. cbn [snd].
  destruct (ready_loop w m recordIds) as [_ _ _ (evs & T & K & Hin)].
  exists ([EvGetActiveTable; EvGetRecordIdList; EvSetProgress (mkProgress 0 n);
           EvGetField (selectedSourceFieldId (ui m));
           EvGetField (selectedTargetFieldId (ui m))]
          ++ evs ++ [EvSetProgress (mkProgress 0 0)]).
  split; [|split].
  - unfold completed. cbn [trace]. rewrite T. unfold atLoop. cbn [trace].
    rewrite <- !app_assoc. reflexivity.
  - cbn [app filter isKey]. rewrite filter_app, K. reflexivity.
  - repeat (apply Forall_cons; [right; left; exact I|]).
    apply Forall_app. split.
    + eapply Forall_impl; [|exact Hin]. intros e [H|H]; tauto.
    + repeat constructor.
Qed.

(** ** C10 *)

(** C10.  Every iteration of the outer loop raises exactly one of the
    three counters by one, and when the loop of a run has ended the
    three counters add up to the number of records. *)
Theorem counters_add_up :
  forall (w : World) (m : Machine),
    (forall u total i recordId,
        oneCounted (locals m)
          (locals (snd (processRecord w u total i recordId m))))
    /\ (forall recordIds,
          preamble w m = Ready recordIds ->
          successCount (locals (snd (handleConvert w m)))
          + skipCount (locals (snd (handleConvert w m)))
          + failCount (locals (snd (handleConvert w m)))
          = List.length recordIds).
Proof.
  intros w m. split.
  - intros u total i recordId.
    exact (rf_counts _ _ _ _ _ _
             (proj2 (processRecord_frame w u total i recordId m))).
  - intros recordIds P. rewrite handleConvert_cases, P. cbn [snd].
    unfold completed. cbn [locals].
    rewrite (lf_sum _ _ _ _ _ _ (ready_loop w m recordIds)).
    reflexivity.
Qed.

(** Witness of C10: the three records of [threeRecords] end as one
    success, one skip and one failure. *)
Lemma counters_add_up_witness :
  successCount (locals (snd (handleConvert threeRecords ready100)))
  + skipCount (locals (snd (handleConvert threeRecords ready100)))
  + failCount (locals (snd (handleConvert threeRecords ready100)))
  = 3.
Proof.
  exact (proj2 (counters_add_up threeRecords ready100) ["r1"; "r2"; "r3"] eq_refl).
Defined.

(** ** C9 *)

Lemma le_progress_seq n start len :
  start + len <= S n ->
  Forall (fun p => current p <= total p)
    (map (fun k => mkProgress k n) (seq start len)).
Proof.
  revert start. induction len as [|len IH]; intros start H; simpl; constructor.
  - simpl. lia.
  - apply IH. lia.
Qed.

(** Between two runs the progress is at (0,0). *)
Lemma dispatch_progress w a m :
  progress (ui m) = mkProgress 0 0 ->
  progress (ui (dispatch w a m)) = mkProgress 0 0.
Proof.
  intros H. destruct a; unfold dispatch; cbv zeta; cbn [ui]; try exact H.
  - unfold fetchData. destruct attachFields as [|f fs]; [exact H|].
    destruct (isEmpty (selectedSourceFieldId (ui m)));
      destruct (isEmpty (selectedTargetFieldId (ui m))); exact H.
  - rewrite handleConvert_cases. cbn [snd].
    destruct (preamble w m); [exact H| | |]; reflexivity.
Qed.

Lemma session_progress w actions : forall m,
  progress (ui m) = mkProgress 0 0 ->
  progress (ui (fold_left (fun m a => dispatch w a m) actions m)) = mkProgress 0 0.
Proof.
  induction actions as [|a actions IH]; intros m Hm; simpl; [exact Hm|].
  apply IH. now apply dispatch_progress.
Qed.

(** C9 (amended).  In a run that gets past its preamble with [n]
    records the progress takes the values (0,n), (1,n), ..., (n,n) and
    then (0,0): [current] never exceeds [total] and goes up by one per
    record.  It is raised to [i+1] at the beginning of the iteration for
    record [i], just before that record's cell is read, not once the
    record is done.  The run ends with the progress at (0,0) and the
    status message made of the three counts.  A run stopped by a fatal
    error inside the [try] also ends with the progress at (0,0), and a
    run refused for a missing field selection leaves it where it was:
    after every action of every session the progress is at (0,0). *)
Theorem progress_of_a_run :
  forall (w : World) (m : Machine),
    (forall recordIds,
        preamble w m = Ready recordIds ->
        let n := List.length recordIds in
        let m' := snd (handleConvert w m) in
        exists evs,
          trace m' = trace m ++ evs
          /\ filter isKey evs =
               EvSetProgress (mkProgress 0 n)
               :: openings (ui m) n 0 recordIds
                  ++ [EvSetProgress (mkProgress 0 0)]
          /\ progressUpdates evs =
               map (fun k => mkProgress k n) (seq 0 (S n)) ++ [mkProgress 0 0]
          /\ Forall (fun p => current p <= total p) (progressUpdates evs)
          /\ progress (ui m') = mkProgress 0 0
          /\ statusMsg (ui m') = summary (locals m'))
    /\ (preamble w m <> NoSelection ->
        progress (ui (snd (handleConvert w m))) = mkProgress 0 0)
    /\ (forall actions, progress (ui (session w actions)) = mkProgress 0 0).
Proof.
  intros w m. split; [|split].
  - intros recordIds P n m'.
    destruct (handleConvert_ready w m recordIds P) as (evs & T & K & _).
    fold n in K. fold m' in T.
    assert (U : progressUpdates evs =
                map (fun k => mkProgress k n) (seq 0 (S n)) ++ [mkProgress 0 0]).
    { rewrite progressUpdates_filter, K.
      change (EvSetProgress (mkProgress 0 n)
              :: openings (ui m) n 0 recordIds ++ [EvSetProgress (mkProgress 0 0)])
        with ([EvSetProgress (mkProgress 0 n)]
              ++ openings (ui m) n 0 recordIds ++ [EvSetProgress (mkProgress 0 0)]).
      rewrite !progressUpdates_app, progressUpdates_openings. reflexivity. }
    exists evs. split; [exact T|]. split; [exact K|]. split; [exact U|].
    split; [|split].
    + rewrite U. apply Forall_app. split.
      * apply (le_progress_seq n 0 (S n)). lia.
      * repeat constructor.
    + subst m'. rewrite handleConvert_cases, P. reflexivity.
    + subst m'. rewrite handleConvert_cases, P. reflexivity.
  - intros N. rewrite handleConvert_cases.
    destruct (preamble w m); [congruence| | |]; reflexivity.
  - intros actions. unfold session.
    apply (session_progress w actions initialMachine). reflexivity.
Qed.

(** Witness of C9: the run over [threeRecords]. *)
Lemma progress_of_a_run_witness :
  exists evs,
    trace (snd (handleConvert threeRecords ready100)) = trace ready100 ++ evs
    /\ progressUpdates evs =
         [mkProgress 0 3; mkProgress 1 3; mkProgress 2 3; mkProgress 3 3;
          mkProgress 0 0]
    /\ progress (ui (snd (handleConvert threeRecords ready100))) = mkProgress 0 0
    /\ statusMsg (ui (snd (handleConvert threeRecords ready100)))
       = "处理完成！成功: 1, 跳过: 1, 失败: 1".
Proof.
  destruct (proj1 (progress_of_a_run threeRecords ready100)
              ["r1"; "r2"; "r3"] eq_refl)
    as (evs & T & _ & U & _ & Pr & St).
  exists evs. split; [exact T|]. split; [exact U|]. split; [exact Pr|].
  rewrite St. reflexivity.
Defined.

(** C9, as stated, fails: in the run over [threeRecords] the progress
    shows 1 of 3 before the first record's cell is read, and 3 of 3
    before the last one is. *)
Lemma progress_is_raised_before_the_record :
  filter isKey (trace (snd (handleConvert threeRecords ready100))) =
    [EvSetProgress (mkProgress 0 3);
     EvSetProgress (mkProgress 1 3); EvGetValue "fldA" "r1";
     EvSetProgress (mkProgress 2 3); EvGetValue "fldA" "r2";
     EvSetProgress (mkProgress 3 3); EvGetValue "fldA" "r3";
     EvSetProgress (mkProgress 0 0)]
  /\ progressFollowsRecords 0 (trace (snd (handleConvert threeRecords ready100)))
     = false.
Proof. split; vm_compute; reflexivity. Qed.

(** ** C6 *)

(** Whatever throws in the body of the per-record [try], no counter has
    been raised yet, and the exception is that of one of three calls. *)
Lemma recordBody_exception w u i recordId m :
  post (recordBody w u i recordId) m
    (fun r m' =>
       forall e, r = Exn e ->
         successCount (locals m') = successCount (locals m)
         /\ skipCount (locals m') = skipCount (locals m)
         /\ failCount (locals m') = failCount (locals m)
         /\ thrownByHost w u recordId e).
Proof.
  unfold recordBody, submitProcessedFiles. mrun.
  all: intros e' E; try discriminate E; injection E as <-.
  all: unfold thrownByHost, withProcessedFiles;
    cbn [locals successCount skipCount failCount];
    repeat match goal with
           | H : successCount _ = _ |- _ => rewrite H
           | H : skipCount _ = _ |- _ => rewrite H
           | H : failCount _ = _ |- _ => rewrite H
           end;
    cbn [locals successCount skipCount failCount];
    repeat (split; [reflexivity|]).
  all: try (left; eauto; fail).
  all: try (right; left; eauto; fail).
  all: right; right;
    match goal with
    | H : (0 <? _)%nat = true |- _ => apply length_pos_nonempty in H
    end;
    eauto.
Qed.

(** Any exception of the body of the per-record [try] is caught at line
    230: the record is counted as failed and the message is logged. *)
Lemma processRecord_exception w u total i recordId m e :
  fst (recordBody w u i recordId (atRecord total i m)) = Exn e ->
  outcomeFailed (locals m)
    (locals (snd (processRecord w u total i recordId m)))
  /\ hd_error (logs (ui (snd (processRecord w u total i recordId m))))
     = Some (mkLog (row i ++ "失败 - " ++ e) error)
  /\ thrownByHost w u recordId e.
Proof.
  intros H. rewrite processRecord_eq. cbv zeta. fold (atRecord total i m).
  pose proof (recordBody_exception w u i recordId (atRecord total i m)) as P.
  unfold post in P.
  destruct (recordBody w u i recordId (atRecord total i m)) as [r m'].
  cbn [fst snd] in *. subst r.
  destruct (P e eq_refl) as (S & K & F & C).
  cbn [snd]. unfold recordFailed, outcomeFailed, countFail.
  cbn [ui locals successCount skipCount failCount].
  rewrite S, K, F. unfold atRecord. cbn [locals]. auto.
Qed.

Lemma recordBody_urls_throw w u total i recordId m l e :
  getValue w (trace m ++ [EvSetProgress (mkProgress (i + 1) total)])
    (selectedSourceFieldId u) recordId = Val (Some l) ->
  l <> [] ->
  getCellAttachmentUrls w
    (trace m ++ [EvSetProgress (mkProgress (i + 1) total);
                 EvGetValue (selectedSourceFieldId u) recordId])
    (map Attachment.token l) (selectedSourceFieldId u) recordId = Exn e ->
  fst (recordBody w u i recordId (atRecord total i m)) = Exn e.
Proof.
  intros Hcell Hne Hurls. unfold recordBody, atRecord.
  unfold bind at 1. unfold call at 1. cbn [ui locals trace]. rewrite Hcell.
  destruct l as [|a l]; [congruence|].
  unfold bind at 1. unfold addLog at 1. unfold modifyUI at 1.
  unfold bind at 1. unfold setProcessedFiles, modifyLocals.
  unfold bind at 1. unfold call at 1.
  cbn [ui locals trace]. rewrite <- app_assoc. cbn [app]. rewrite Hurls.
  reflexivity.
Qed.

Lemma recordBody_write_throws w u total i recordId m l urls e :
  getValue w (trace m ++ [EvSetProgress (mkProgress (i + 1) total)])
    (selectedSourceFieldId u) recordId = Val (Some l) ->
  l <> [] ->
  getCellAttachmentUrls w
    (trace m ++ [EvSetProgress (mkProgress (i + 1) total);
                 EvGetValue (selectedSourceFieldId u) recordId])
    (map Attachment.token l) (selectedSourceFieldId u) recordId = Val urls ->
  processedFiles (locals (afterAttachments w u total i recordId l urls m))
  <> [] ->
  setValue w (trace (afterAttachments w u total i recordId l urls m))
    (selectedTargetFieldId u) recordId
    (processedFiles (locals (afterAttachments w u total i recordId l urls m)))
  = Exn e ->
  outcomeFailed (locals m)
    (locals (snd (processRecord w u total i recordId m)))
  /\ hd_error (logs (ui (snd (processRecord w u total i recordId m))))
     = Some (mkLog (row i ++ "失败 - " ++ e) error).
Proof.
  intros Hcell Hne Hurls Hfiles Hset.
  rewrite (processRecord_attachments w u total i recordId m l urls Hcell Hne Hurls).
  rewrite (submit_call w u i recordId _ Hfiles). cbv zeta. rewrite Hset.
  cbn [snd]. unfold recordFailed, outcomeFailed, countFail.
  cbn [ui locals successCount skipCount failCount].
  destruct (afterAttachments_counts w u total i recordId l urls m)
    as (S & K & F).
  rewrite S, K, F. auto.
Qed.

(** C6 (amended).  Any exception thrown while a record is processed is
    caught at the boundary of the record: the iteration returns
    normally, the record is counted as failed and the exception's
    message is logged.  This holds for whatever the body of the
    per-record [try] throws, and such an exception is that of one of
    three calls: the read of the source cell, the resolution of the
    URLs, or the write to the target cell; each of the three is stated
    on its own.  The loop reads every record of the table, in order,
    whatever happened to the records before.  A run never throws.  It
    is stopped without any record being read exactly when it does not
    reach the loop: a field selection is missing, the table has no
    record, or one of the host calls made before the loop (the active
    table, the record ids, the source field, the target field)
    throws. *)
Theorem record_faults_do_not_stop_the_batch :
  forall (w : World) (m : Machine),
    (forall u total i recordId,
        fst (processRecord w u total i recordId m) = Val tt
        /\ (forall e,
              getValue w (trace m ++ [EvSetProgress (mkProgress (i + 1) total)])
                (selectedSourceFieldId u) recordId = Exn e ->
              outcomeFailed (locals m)
                (locals (snd (processRecord w u total i recordId m)))
              /\ hd_error (logs (ui (snd (processRecord w u total i recordId m))))
                 = Some (mkLog (row i ++ "失败 - " ++ e) error))
        /\ (forall e,
              fst (recordBody w u i recordId (atRecord total i m)) = Exn e ->
              outcomeFailed (locals m)
                (locals (snd (processRecord w u total i recordId m)))
              /\ hd_error (logs (ui (snd (processRecord w u total i recordId m))))
                 = Some (mkLog (row i ++ "失败 - " ++ e) error)
              /\ thrownByHost w u recordId e)
        /\ (forall l e,
              getValue w (trace m ++ [EvSetProgress (mkProgress (i + 1) total)])
                (selectedSourceFieldId u) recordId = Val (Some l) ->
              l <> [] ->
              getCellAttachmentUrls w
                (trace m ++ [EvSetProgress (mkProgress (i + 1) total);
                             EvGetValue (selectedSourceFieldId u) recordId])
                (map Attachment.token l) (selectedSourceFieldId u) recordId
              = Exn e ->
              outcomeFailed (locals m)
                (locals (snd (processRecord w u total i recordId m)))
              /\ hd_error (logs (ui (snd (processRecord w u total i recordId m))))
                 = Some (mkLog (row i ++ "失败 - " ++ e) error))
        /\ (forall l urls e,
              getValue w (trace m ++ [EvSetProgress (mkProgress (i + 1) total)])
                (selectedSourceFieldId u) recordId = Val (Some l) ->
              l <> [] ->
              getCellAttachmentUrls w
                (trace m ++ [EvSetProgress (mkProgress (i + 1) total);
                             EvGetValue (selectedSourceFieldId u) recordId])
                (map Attachment.token l) (selectedSourceFieldId u) recordId
              = Val urls ->
              processedFiles
                (locals (afterAttachments w u total i recordId l urls m)) <> [] ->
              setValue w (trace (afterAttachments w u total i recordId l urls m))
                (selectedTargetFieldId u) recordId
                (processedFiles
                   (locals (afterAttachments w u total i recordId l urls m)))
              = Exn e ->
              outcomeFailed (locals m)
                (locals (snd (processRecord w u total i recordId m)))
              /\ hd_error (logs (ui (snd (processRecord w u total i recordId m))))
                 = Some (mkLog (row i ++ "失败 - " ++ e) error)))
    /\ (forall u total i recordIds,
          fst (recordsLoop w u total i recordIds m) = Val tt
          /\ exists evs,
               trace (snd (recordsLoop w u total i recordIds m)) = trace m ++ evs
               /\ getValueCalls evs = recordIds)
    /\ fst (handleConvert w m) = Val tt
    /\ match preamble w m with
       | NoSelection =>
           snd (handleConvert w m) =
             mkMachine (withStatusMsg "请先选择源字段和目标字段" (ui m))
               (locals m) (trace m)
       | NoRecords =>
           snd (handleConvert w m) =
             aborted m "当前表格没有记录" [EvGetActiveTable; EvGetRecordIdList]
       | HostFailed e evs =>
           snd (handleConvert w m) = aborted m e evs
           /\ evs <> [] /\ getValueCalls evs = []
       | Ready recordIds =>
           recordIds <> []
           /\ statusMsg (ui (snd (handleConvert w m)))
              = summary (locals (snd (handleConvert w m)))
           /\ exists evs,
                trace (snd (handleConvert w m)) = trace m ++ evs
                /\ getValueCalls evs = recordIds
       end.
Proof.
  intros w m. split; [|split; [|split]].
  - intros u total i recordId. split; [|split; [|split; [|split]]].
    + exact (proj1 (processRecord_frame w u total i recordId m)).
    + intros e H.
      rewrite (processRecord_read_throws w u total i recordId m e H).
      cbn [snd]. unfold recordFailed, outcomeFailed, countFail.
      cbn [ui locals successCount skipCount failCount]. auto.
    + intros e H. now apply processRecord_exception.
    + intros l e Hcell Hne Hurls.
      pose proof (recordBody_urls_throw w u total i recordId m l e
                    Hcell Hne Hurls) as T.
      destruct (processRecord_exception w u total i recordId m e T)
        as (O & L & _).
      now split.
    + intros l urls e.
      apply (recordBody_write_throws w u total i recordId m l urls e).
  - intros u total i recordIds.
    destruct (recordsLoop_frame w u total recordIds i m)
      as [R [_ _ _ (evs & T & K & _)]].
    split; [exact R|]. exists evs. split; [exact T|].
    now rewrite getValueCalls_filter, K, getValueCalls_openings.
  - now rewrite handleConvert_cases.
  - rewrite handleConvert_cases. cbn [snd].
    destruct (preamble w m) as [|e evs| |recordIds] eqn:P;
      try reflexivity.
    + split; [reflexivity|].
      pose proof (preamble_HostFailed w m e evs P) as F.
      split; [|exact (getValueCalls_preamble evs F)].
      revert P. unfold preamble.
      destruct (isEmpty _ || isEmpty _)%bool; [discriminate|].
      destruct (getActiveTable w (trace m)) as [[]|e1];
        [|intros [= _ <-]; discriminate].
      destruct (getRecordIdList w _) as [rs|e2];
        [|intros [= _ <-]; discriminate].
      destruct (List.length rs =? 0)%nat; [discriminate|]. cbv zeta.
      destruct (getField w _ (selectedSourceFieldId (ui m))) as [[]|e3];
        [|intros [= _ <-]; discriminate].
      destruct (getField w _ (selectedTargetFieldId (ui m))) as [[]|e4];
        [discriminate | intros [= _ <-]; discriminate].
    + split; [exact (preamble_Ready_nonempty w m recordIds P)|].
      split; [reflexivity|].
      destruct (handleConvert_ready w m recordIds P) as (evs & T & K & _).
      rewrite handleConvert_cases, P in T. cbn [snd] in T.
      exists evs. split; [exact T|].
      now rewrite getValueCalls_filter, K, getValueCalls_keys.
Qed.

(** Witness of C6: the third record of [threeRecords], whose read
    throws; the record of [urlsUnavailable], whose URLs cannot be
    resolved; the record of [writeThrows], whose write throws.  Each is
    counted as failed with the message of its exception. *)
Lemma record_faults_do_not_stop_the_batch_witness :
  (outcomeFailed (locals ready100)
     (locals (snd (processRecord threeRecords (ui ready100) 3 2 "r3" ready100)))
   /\ hd_error (logs (ui (snd (processRecord threeRecords (ui ready100) 3 2 "r3"
                                 ready100))))
      = Some (mkLog "第 3 行: 失败 - boom" error))
  /\ (outcomeFailed (locals ready100)
        (locals (snd (processRecord urlsUnavailable (ui ready100) 1 0 "r1"
                        ready100)))
      /\ hd_error (logs (ui (snd (processRecord urlsUnavailable (ui ready100)
                                    1 0 "r1" ready100))))
         = Some (mkLog "第 1 行: 失败 - no permission" error))
  /\ (outcomeFailed (locals ready100)
        (locals (snd (processRecord writeThrows (ui ready100) 1 0 "r1"
                        ready100)))
      /\ hd_error (logs (ui (snd (processRecord writeThrows (ui ready100)
                                    1 0 "r1" ready100))))
         = Some (mkLog "第 1 行: 失败 - quota exceeded" error)
      /\ thrownByHost writeThrows (ui ready100) "r1" "quota exceeded")
  /\ hd_error (logs (ui (snd (processRecord writeThrows (ui ready100)
                                1 0 "r1" ready100))))
     = Some (mkLog "第 1 行: 失败 - quota exceeded" error).
Proof.
  split; [|split; [|split]].
  - exact (proj1 (proj2 (proj1 (record_faults_do_not_stop_the_batch
                                  threeRecords ready100)
                           (ui ready100) 3 2 "r3"))
             "boom" eq_refl).
  - apply (proj1 (proj2 (proj2 (proj2
             (proj1 (record_faults_do_not_stop_the_batch urlsUnavailable
                       ready100)
                (ui ready100) 1 0 "r1"))))
             [Attachment.mk "t1" "a.png"] "no permission");
      [reflexivity | discriminate | reflexivity].
  - exact (proj1 (proj2 (proj2 (proj1 (record_faults_do_not_stop_the_batch
                                         writeThrows ready100)
                                  (ui ready100) 1 0 "r1")))
             "quota exceeded" eq_refl).
  - apply (proj2 (proj2 (proj2 (proj2
             (proj1 (record_faults_do_not_stop_the_batch writeThrows ready100)
                (ui ready100) 1 0 "r1"))))
             [Attachment.mk "t1" "a.png"] ["https://files/t1"]
             "quota exceeded");
      [reflexivity | discriminate | reflexivity
      | vm_compute; discriminate | reflexivity].
Defined.

(** C6, as stated, fails when a host call before the loop throws: in
    [fieldMissing] both fields are selected and the table has a record,
    yet the run is stopped before any record is read. *)
Lemma host_failure_before_the_loop_is_fatal :
  isEmpty (selectedSourceFieldId (ui ready100)) = false
  /\ isEmpty (selectedTargetFieldId (ui ready100)) = false
  /\ getRecordIdList fieldMissing [EvGetActiveTable] = Val ["r1"]
  /\ statusMsg (ui (snd (handleConvert fieldMissing ready100)))
     = "失败: field not found"
  /\ trace (snd (handleConvert fieldMissing ready100))
     = [EvGetActiveTable; EvGetRecordIdList;
        EvSetProgress (mkProgress 0 1);
        EvGetField "fldA"; EvGetField "fldB";
        EvSetProgress (mkProgress 0 0)]
  /\ getValueCalls (trace (snd (handleConvert fieldMissing ready100))) = [].
Proof. repeat split; vm_compute; reflexivity. Qed.

(** ** C8 *)

(** A run hands the dimensions of the form to the transform as they
    are, and leaves them as they are. *)
Lemma handleConvert_dimensions w m :
  exists evs,
    trace (snd (handleConvert w m)) = trace m ++ evs
    /\ Forall (calledWith (ui m)) evs
    /\ targetWidth (ui (snd (handleConvert w m))) = targetWidth (ui m)
    /\ targetHeight (ui (snd (handleConvert w m))) = targetHeight (ui m).
Proof.
  destruct (preamble w m) as [|e evs| |recordIds] eqn:P.
  - rewrite handleConvert_cases, P. exists []. rewrite app_nil_r. simpl. auto.
  - rewrite handleConvert_cases, P. cbn [snd].
    exists (evs ++ [EvSetProgress (mkProgress 0 0)]).
    split; [reflexivity|]. split; [|split; reflexivity].
    apply Forall_app. split; [|repeat constructor].
    eapply Forall_impl; [|exact (preamble_HostFailed w m e evs P)].
    now intros [].
  - rewrite handleConvert_cases, P. cbn [snd]. eexists.
    split; [reflexivity|]. split; [repeat constructor|split; reflexivity].
  - destruct (handleConvert_ready w m recordIds P) as (evs & T & _ & F).
    exists evs. split; [exact T|]. split.
    + eapply Forall_impl; [|exact F].
      intros [] [H|[H|H]]; simpl in *; try exact I; try discriminate;
        try contradiction; exact H.
    + rewrite handleConvert_cases, P. cbn [snd]. unfold completed. cbn [ui].
      destruct (lf_ui _ _ _ _ _ _ (ready_loop w m recordIds)) as [lg U].
      rewrite U. split; reflexivity.
Qed.

Lemma dispatch_invariant w a m :
  dimensionsInvariant m -> dimensionsInvariant (dispatch w a m).
Proof.
  intros (T & W & H). destruct a; unfold dispatch; cbv zeta.
  - split; [exact T|]. cbn [ui]. unfold fetchData.
    destruct attachFields as [|f fs]; [now split|].
    destruct (isEmpty (selectedSourceFieldId (ui m)));
      destruct (isEmpty (selectedTargetFieldId (ui m))); now split.
  - split; [exact T|]. now split.
  - split; [exact T|]. now split.
  - split; [exact T|]. cbn [ui setTargetWidth targetWidth targetHeight].
    split; [apply falsy_or_else | exact H].
  - split; [exact T|]. cbn [ui setTargetHeight targetWidth targetHeight].
    split; [exact W | apply falsy_or_else].
  - destruct (handleConvert_dimensions w m) as (evs & E & C & Ew & Eh).
    split; [|now rewrite Ew, Eh].
    rewrite E. apply Forall_app. split; [exact T|].
    eapply Forall_impl; [|exact C].
    intros [] Hc; simpl in *; try exact I.
    destruct Hc as [-> ->]. now split.
Qed.

Lemma session_invariant w actions : forall m,
  dimensionsInvariant m ->
  dimensionsInvariant (fold_left (fun m a => dispatch w a m) actions m).
Proof.
  induction actions as [|a actions IH]; intros m Hm; simpl; [exact Hm|].
  apply IH. now apply dispatch_invariant.
Qed.

(** C8 (amended).  The record-processing code hands the dimensions of
    the form to the transform as they are, without a check of its own.
    The dimensions are kept usable where they are entered: the change
    handlers of the two inputs put 1 in the place of 0, of an empty
    entry and of an entry that is not a number.  So in every session, of
    any actions and in any world, every call of the transform has a
    width and a height that are neither zero nor [NaN]. *)
Theorem transform_dimensions :
  forall (w : World),
    (forall m, exists evs,
        trace (snd (handleConvert w m)) = trace m ++ evs
        /\ Forall (calledWith (ui m)) evs)
    /\ (forall v,
          Number.falsy (targetWidth (ui (dispatch w (ChangeTargetWidth v)
                                           initialMachine))) = false
          /\ Number.falsy (targetHeight (ui (dispatch w (ChangeTargetHeight v)
                                               initialMachine))) = false)
    /\ (forall actions,
          Forall truthyDimensions (trace (session w actions))).
Proof.
  intros w. split; [|split].
  - intros m. destruct (handleConvert_dimensions w m) as (evs & E & C & _).
    exists evs. auto.
  - intros v. split; apply falsy_or_else.
  - intros actions. unfold session.
    apply (session_invariant w actions initialMachine).
    split; [constructor|]. split; reflexivity.
Qed.

(** C8, as stated, fails: a negative width typed into the form reaches
    the transform. *)
Lemma negative_width_reaches_the_transform :
  In (EvTransform (Bytes "jpegdata") (-5)%float 800%float)
     (trace (session threeRecords
               [FetchData ["fldA"; "fldB"]; ChangeTargetWidth (-5)%float;
                ClickConvert]))
  /\ PrimFloat.ltb 0%float (-5)%float = false.
Proof. split; [vm_compute; tauto | reflexivity]. Qed.

(* ================================================================== *)
(** * 20. The form between runs *)
(* ================================================================== *)

(** ** The log (lines 123-125, 135) *)

Lemma logs_pushLog_bound (entry : LogEntry) (u : UI) :
  0 < List.length (logs (pushLog entry u)) <= 50.
Proof.
  unfold pushLog. cbn [logs with_logs]. split.
  - cbn [firstn List.length]. lia.
  - apply firstn_le_length.
Qed.

(** Every way through an iteration of the outer loop ends with a line
    added to the log. *)
Lemma processRecord_log w u total i recordId m :
  post (processRecord w u total i recordId) m
    (fun r m' => r = Val tt /\ 0 < List.length (logs (ui m')) <= 50).
Proof.
  unfold processRecord, recordBody, submitProcessedFiles. mrun.
  all: split; [reflexivity|].
  all: cbn [ui]; apply logs_pushLog_bound.
Qed.

Lemma recordsLoop_log w u total recordIds : forall i m,
  (recordIds = [] -> 0 < List.length (logs (ui m)) <= 50) ->
  post (recordsLoop w u total i recordIds) m
    (fun _ m' => 0 < List.length (logs (ui m')) <= 50).
Proof.
  induction recordIds as [|recordId rest IH]; intros i m Hm; simpl.
  - apply post_ret. now apply Hm.
  - apply post_bind.
    eapply post_mono; [apply processRecord_log|].
    intros r m1 [-> L1]. cbv beta iota.
    apply IH. intros _. exact L1.
Qed.

Lemma handleConvert_log (w : World) (m : Machine) :
  match preamble w m with
  | NoSelection => logs (ui (snd (handleConvert w m))) = logs (ui m)
  | HostFailed _ _ | NoRecords => logs (ui (snd (handleConvert w m))) = []
  | Ready _ => 0 < List.length (logs (ui (snd (handleConvert w m)))) <= 50
  end.
Proof.
  rewrite handleConvert_cases. cbn [snd].
  destruct (preamble w m) as [|e evs| |recordIds] eqn:P; try reflexivity.
  unfold completed. cbn [ui].
  change (logs (finished (withStatusMsg ?s ?u))) with (logs u).
  apply (recordsLoop_log w (ui m) (List.length recordIds) recordIds 0
           (atLoop m recordIds)).
  intros ->. now apply preamble_Ready_nonempty in P.
Qed.

Lemma dispatch_log w a m :
  List.length (logs (ui m)) <= 50 ->
  List.length (logs (ui (dispatch w a m))) <= 50.
Proof.
  intros H. destruct a; unfold dispatch; cbv zeta; cbn [ui]; try exact H.
  - unfold fetchData. destruct attachFields as [|f fs]; [exact H|].
    destruct (isEmpty (selectedSourceFieldId (ui m)));
      destruct (isEmpty (selectedTargetFieldId (ui m))); exact H.
  - pose proof (handleConvert_log w m) as L.
    destruct (preamble w m); try (rewrite L; simpl; lia). lia.
Qed.

Lemma session_log w actions : forall m,
  List.length (logs (ui m)) <= 50 ->
  List.length (logs (ui (fold_left (fun m a => dispatch w a m) actions m))) <= 50.
Proof.
  induction actions as [|a actions IH]; intros m Hm; simpl; [exact Hm|].
  apply IH. now apply dispatch_log.
Qed.

(** The log never holds more than 50 lines (line 124): after every
    action of every session, whatever the number of records, of
    attachments and of failures. *)
Theorem log_keeps_fifty :
  forall (w : World) (actions : list Action),
    List.length (logs (ui (session w actions))) <= 50.
Proof.
  intros w actions. unfold session. apply session_log. simpl. lia.
Qed.

(** What a run leaves in the log (lines 340-351 show it when it is not
    empty): a run refused for a missing selection leaves the log of the
    run before; a run stopped before its loop leaves none, because the
    log is emptied at line 135 and nothing is logged before the loop; a
    run that reached the loop leaves one that is shown. *)
Theorem log_of_a_run :
  forall (w : World) (m : Machine),
    let u' := ui (snd (handleConvert w m)) in
    match preamble w m with
    | NoSelection => logs u' = logs (ui m)
    | HostFailed _ _ | NoRecords => logs u' = [] /\ logShown u' = false
    | Ready _ => logShown u' = true /\ List.length (logs u') <= 50
    end.
Proof.
  intros w m u'. subst u'. pose proof (handleConvert_log w m) as L.
  unfold logShown.
  destruct (preamble w m); try exact L; try (rewrite L; split; reflexivity).
  split; [apply Nat.ltb_lt|]; lia.
Qed.

(** ** Between two runs (lines 128-135, 236-244) *)

Lemma or_else_nonempty (a d : string) : d <> "" -> JsString.or_else a d <> "".
Proof. destruct a; simpl; [auto | discriminate]. Qed.

Lemma restingStatus_not_initialising (s : string) :
  restingStatus s -> s <> "正在初始化处理...".
Proof.
  intros [->|[->|[(e & _ & ->)|(l & ->)]]]; discriminate.
Qed.

Lemma handleConvert_resting w m :
  isConverting (ui m) = false -> restingStatus (statusMsg (ui m)) ->
  isConverting (ui (snd (handleConvert w m))) = false
  /\ restingStatus (statusMsg (ui (snd (handleConvert w m)))).
Proof.
  intros C S. rewrite handleConvert_cases. cbn [snd].
  destruct (preamble w m) as [|e evs| |recordIds]; cbn [ui].
  - split; [exact C|]. right. left. reflexivity.
  - split; [reflexivity|]. right. right. left.
    exists (JsString.or_else e "未知错误"). split; [|reflexivity].
    apply or_else_nonempty. discriminate.
  - split; [reflexivity|]. right. right. left.
    exists "当前表格没有记录". split; [discriminate | reflexivity].
  - split; [reflexivity|]. right. right. right. eexists. reflexivity.
Qed.

Lemma dispatch_resting w a m :
  isConverting (ui m) = false /\ restingStatus (statusMsg (ui m)) ->
  isConverting (ui (dispatch w a m)) = false
  /\ restingStatus (statusMsg (ui (dispatch w a m))).
Proof.
  intros [C S]. destruct a; unfold dispatch; cbv zeta; cbn [ui];
    try (split; [exact C | exact S]).
  - unfold fetchData. destruct attachFields as [|f fs]; [now split|].
    destruct (isEmpty (selectedSourceFieldId (ui m)));
      destruct (isEmpty (selectedTargetFieldId (ui m))); now split.
  - now apply handleConvert_resting.
Qed.

Lemma session_resting w actions : forall m,
  isConverting (ui m) = false /\ restingStatus (statusMsg (ui m)) ->
  isConverting (ui (fold_left (fun m a => dispatch w a m) actions m)) = false
  /\ restingStatus
       (statusMsg (ui (fold_left (fun m a => dispatch w a m) actions m))).
Proof.
  induction actions as [|a actions IH]; intros m Hm; simpl; [exact Hm|].
  apply IH. now apply dispatch_resting.
Qed.

(** Whatever a run met, its [finally] block (lines 241-244) puts the
    form back: after every action of every session the component is
    not converting, the progress bar is not shown, the button is
    disabled only for a missing selection, and the status is empty or
    one of the three final messages, never the initial one of line
    134. *)
Theorem between_runs :
  forall (w : World) (actions : list Action),
    let u := ui (session w actions) in
    isConverting u = false
    /\ progressShown u = false
    /\ convertDisabled u
       = (isEmpty (selectedSourceFieldId u)
          || isEmpty (selectedTargetFieldId u))%bool
    /\ restingStatus (statusMsg u)
    /\ String.eqb (statusMsg u) "正在初始化处理..." = false.
Proof.
  intros w actions u. subst u.
  destruct (session_resting w actions initialMachine) as [C S].
  { split; [reflexivity | now left]. }
  fold (session w actions) in C, S.
  unfold progressShown, convertDisabled. rewrite C.
  repeat split; try exact S.
  apply String.eqb_neq. now apply restingStatus_not_initialising.
Qed.

(** ** The style of the status line (line 338) *)

(** The status line is styled by the text of the message: the summary
    of a run that reached its loop reads as a success, whatever its
    three counts, also when every record failed; the refusal for a
    missing selection and the message for an empty table read as
    errors; a failure of the host is styled by the host's own message,
    as a success if that message contains one of the two words. *)
Theorem status_style :
  forall (w : World) (m : Machine),
    let m' := snd (handleConvert w m) in
    match preamble w m with
    | NoSelection =>
        statusLine (ui m') = Some ("error", "请先选择源字段和目标字段")
    | NoRecords =>
        statusLine (ui m') = Some ("error", "失败: 当前表格没有记录")
    | HostFailed e _ =>
        statusLine (ui m')
        = Some (statusClass (JsString.or_else e "未知错误"),
                ("失败: " ++ JsString.or_else e "未知错误")%string)
    | Ready _ =>
        statusLine (ui m') = Some ("success", summary (locals m'))
    end.
Proof.
  intros w m m'. subst m'. rewrite handleConvert_cases. cbn [snd].
  destruct (preamble w m) as [|e evs| |recordIds]; reflexivity.
Qed.

(** ** The button (lines 128-131, 333) *)

Lemma preamble_NoSelection w m :
  preamble w m = NoSelection ->
  (isEmpty (selectedSourceFieldId (ui m))
   || isEmpty (selectedTargetFieldId (ui m)))%bool = true.
Proof.
  unfold preamble.
  destruct (isEmpty _ || isEmpty _)%bool; [reflexivity|].
  destruct (getActiveTable w (trace m)) as [[]|e1]; [|discriminate].
  destruct (getRecordIdList w _) as [rs|e2]; [|discriminate].
  destruct (List.length rs =? 0)%nat; [discriminate|].
  cbv zeta.
  destruct (getField w _ (selectedSourceFieldId (ui m))) as [[]|e3];
    [|discriminate].
  destruct (getField w _ (selectedTargetFieldId (ui m))) as [[]|e4];
    discriminate.
Qed.

Lemma dispatchForm_status w a m :
  statusMsg (ui m) <> "请先选择源字段和目标字段" ->
  statusMsg (ui (dispatchForm w a m)) <> "请先选择源字段和目标字段".
Proof.
  intros H. destruct a; unfold dispatchForm, dispatch; cbv zeta; cbn [ui];
    try exact H.
  - unfold fetchData. destruct attachFields as [|f fs]; [exact H|].
    destruct (isEmpty (selectedSourceFieldId (ui m)));
      destruct (isEmpty (selectedTargetFieldId (ui m))); exact H.
  - unfold clickConvert, convertDisabled.
    destruct (isConverting (ui m)); [exact H|]. cbn [orb].
    destruct (isEmpty (selectedSourceFieldId (ui m))
              || isEmpty (selectedTargetFieldId (ui m)))%bool eqn:Sel;
      [exact H|].
    rewrite handleConvert_cases. cbn [snd].
    destruct (preamble w m) as [|e evs| |recordIds] eqn:P; cbn [ui];
      try discriminate.
    apply preamble_NoSelection in P. congruence.
Qed.

Lemma formSession_status w actions : forall m,
  statusMsg (ui m) <> "请先选择源字段和目标字段" ->
  statusMsg (ui (fold_left (fun m a => dispatchForm w a m) actions m))
  <> "请先选择源字段和目标字段".
Proof.
  induction actions as [|a actions IH]; intros m Hm; simpl; [exact Hm|].
  apply IH. now apply dispatchForm_status.
Qed.

(** The button is disabled under the condition [handleConvert] tests
    first, so through the form the refusal of lines 128-131 is never
    reached: no session of clicks and changes shows its message. *)
Theorem selection_warning_is_unreachable :
  forall (w : World) (actions : list Action),
    String.eqb (statusMsg (ui (formSession w actions)))
      "请先选择源字段和目标字段" = false.
Proof.
  intros w actions. apply String.eqb_neq. unfold formSession.
  apply formSession_status. discriminate.
Qed.

(** ** What a run reads of the form *)

Lemma recordsLoop_inputs w u1 u2 total recordIds : forall i m,
  selectedSourceFieldId u1 = selectedSourceFieldId u2 ->
  selectedTargetFieldId u1 = selectedTargetFieldId u2 ->
  targetWidth u1 = targetWidth u2 ->
  targetHeight u1 = targetHeight u2 ->
  recordsLoop w u1 total i recordIds m = recordsLoop w u2 total i recordIds m.
Proof.
  intros i m Hs Ht Hw Hh. revert i m.
  induction recordIds as [|recordId rest IH]; intros i m; [reflexivity|].
  cbn [recordsLoop]. unfold bind.
  replace (processRecord w u1 total i recordId m)
    with (processRecord w u2 total i recordId m).
  - destruct (processRecord w u2 total i recordId m) as [[[]|e] m1];
      [apply IH | reflexivity].
  - unfold processRecord, recordBody, submitProcessedFiles.
    now rewrite Hs, Ht, Hw, Hh.
Qed.

(** A run that is not refused depends on the form only through the two
    selections and the two dimensions: the status, the log, the
    progress and the converting flag left by whatever came before do not
    influence what it does nor what it leaves. *)
Theorem run_ignores_previous_outcome :
  forall (w : World) (u1 u2 : UI) (l : Locals) (t : list Event),
    selectedSourceFieldId u1 = selectedSourceFieldId u2 ->
    selectedTargetFieldId u1 = selectedTargetFieldId u2 ->
    targetWidth u1 = targetWidth u2 ->
    targetHeight u1 = targetHeight u2 ->
    isEmpty (selectedSourceFieldId u1) = false ->
    isEmpty (selectedTargetFieldId u1) = false ->
    handleConvert w (mkMachine u1 l t) = handleConvert w (mkMachine u2 l t).
Proof.
  intros w u1 u2 l t Hs Ht Hw Hh Ns Nt.
  rewrite !handleConvert_cases. f_equal.
  assert (P : preamble w (mkMachine u1 l t) = preamble w (mkMachine u2 l t)).
  { unfold preamble. cbn [ui trace]. now rewrite Hs, Ht. }
  rewrite <- P.
  assert (A : forall e evs,
             aborted (mkMachine u1 l t) e evs = aborted (mkMachine u2 l t) e evs).
  { intros e evs. unfold aborted, finished, started. cbn [ui locals trace].
    destruct u1, u2. cbn in Hs, Ht, Hw, Hh. now subst. }
  destruct (preamble w (mkMachine u1 l t)) as [|e evs| |recordIds] eqn:P1.
  - apply preamble_NoSelection in P1. cbn [ui] in P1.
    rewrite Ns, Nt in P1. discriminate.
  - apply A.
  - apply A.
  - assert (L : atLoop (mkMachine u1 l t) recordIds
                = atLoop (mkMachine u2 l t) recordIds).
    { unfold atLoop, started. cbn [ui locals trace].
      destruct u1, u2. cbn in Hs, Ht, Hw, Hh. now subst. }
    rewrite L. cbn [ui].
    now rewrite (recordsLoop_inputs w u1 u2 _ recordIds 0 _ Hs Ht Hw Hh).
Qed.

(** The same click after a run that failed and on a fresh form. *)
Lemma run_ignores_previous_outcome_witness :
  handleConvert threeRecords
    (mkMachine (withStatusMsg "失败: boom" (ui ready100)) (locals ready100) [])
  = handleConvert threeRecords
      (mkMachine (ui ready100) (locals ready100) []).
Proof.
  apply run_ignores_previous_outcome; reflexivity.
Defined.

(* ================================================================== *)
(** * 21. The calls of a run *)
(* ================================================================== *)

(** ** The downloads and transforms of a record (lines 177-212) *)

Lemma processAttachment_calls w tw th a url m :
  post (processAttachment w tw th a url) m
    (fun r m' =>
       r = Val tt
       /\ trace m' = trace m ++ attachmentCall w tw th (trace m) a url
       /\ List.length (processedFiles (locals m'))
          <= List.length (processedFiles (locals m))
             + List.length (transformCalls (attachmentCall w tw th (trace m) a url))).
Proof.
  unfold processAttachment. msteps'.
  all: split; [reflexivity|].
  all: unfold attachmentCall, downloaded.
  all: repeat match goal with
              | H : negb _ = true |- _ => apply negb_true_iff in H
              | H : negb _ = false |- _ => apply negb_false_iff in H
              end.
  all: repeat match goal with
              | H : isImage _ = _ |- _ => rewrite H
              | H : fetch _ _ _ = _ |- _ => rewrite H
              | H : Response.ok _ = _ |- _ => rewrite H
              | H : Response.blob _ = _ |- _ => rewrite H
              end.
  all: cbn [transformCalls flat_map app List.length processedFiles
            withProcessedFiles locals];
    rewrite <- ?app_assoc, ?length_app, ?app_nil_r; cbn [app List.length];
    split; [reflexivity | lia].
Qed.

Lemma transformCalls_app a b :
  transformCalls (a ++ b) = transformCalls a ++ transformCalls b.
Proof. apply flat_map_app. Qed.

Lemma fetchCalls_app a b : fetchCalls (a ++ b) = fetchCalls a ++ fetchCalls b.
Proof. apply flat_map_app. Qed.

Lemma attachmentsLoop_calls w tw th urls l : forall j m,
  post (attachmentsLoop w tw th urls j l) m
    (fun r m' =>
       r = Val tt
       /\ trace m' = trace m ++ attachmentCalls w tw th urls (trace m) j l
       /\ List.length (processedFiles (locals m'))
          <= List.length (processedFiles (locals m))
             + List.length
                 (transformCalls (attachmentCalls w tw th urls (trace m) j l))).
Proof.
  induction l as [|a l IH]; intros j m; cbn [attachmentsLoop attachmentCalls].
  - apply post_ret. rewrite app_nil_r. simpl. auto with arith.
  - apply post_bind.
    eapply post_mono; [apply processAttachment_calls|].
    intros r m1 (-> & T1 & F1). cbv beta iota zeta.
    eapply post_mono; [apply IH|].
    intros r m2 (-> & T2 & F2). split; [reflexivity|].
    rewrite T2, T1, <- app_assoc. split; [reflexivity|].
    rewrite T1 in F2. rewrite transformCalls_app, length_app. lia.
Qed.

Lemma post_conj {A} (c : M A) m (P Q : result A -> Machine -> Prop) :
  post c m P -> post c m Q -> post c m (fun r m' => P r m' /\ Q r m').
Proof. unfold post. auto. Qed.

Lemma attachmentCall_inner w u h a url recordId :
  Forall (innerCall u recordId)
    (attachmentCall w (targetWidth u) (targetHeight u) h a url)
  /\ writes (attachmentCall w (targetWidth u) (targetHeight u) h a url) = [].
Proof.
  unfold attachmentCall. destruct (isImage (fileNameOf a)); [|now split].
  destruct (downloaded w h url); split; try reflexivity;
    repeat constructor.
Qed.

Lemma writes_app a b : writes (a ++ b) = writes a ++ writes b.
Proof. apply flat_map_app. Qed.

Lemma attachmentCalls_inner w u urls recordId l : forall h j,
  Forall (innerCall u recordId)
    (attachmentCalls w (targetWidth u) (targetHeight u) urls h j l)
  /\ writes (attachmentCalls w (targetWidth u) (targetHeight u) urls h j l) = [].
Proof.
  induction l as [|a l IH]; intros h j; cbn [attachmentCalls]; [now split|].
  cbv zeta.
  destruct (attachmentCall_inner w u h a (nth_error urls j) recordId) as [F1 W1].
  destruct (IH (h ++ attachmentCall w (targetWidth u) (targetHeight u) h a
                       (nth_error urls j)) (S j)) as [F2 W2].
  split; [apply Forall_app; now split|].
  now rewrite writes_app, W1, W2.
Qed.

Ltac mloop' :=
  lazymatch goal with
  | |- post (attachmentsLoop _ _ _ _ _ _) _ _ =>
      eapply post_mono;
      [apply post_conj; [apply attachmentsLoop_frame | apply attachmentsLoop_calls]|];
      let m' := fresh "m'" in
      let T := fresh "T" in
      let L := fresh "L" in
      intros ? m' [[-> [_ ? ? ? (? & ? & ? & ?) _]] (_ & T & L)];
      cbv beta iota;
      cbn [ui locals trace successCount skipCount failCount processedFiles
           withProcessedFiles] in *
  end.

Ltac mrun' :=
  repeat (first [mloop' | mstep']; msimpl).

Lemma recordInner_nil u recordId : recordInner u recordId [].
Proof. split; [constructor | now left]. Qed.

Lemma recordInner_urls u recordId tokens calls :
  Forall (innerCall u recordId) calls -> writes calls = [] ->
  recordInner u recordId
    (EvGetCellAttachmentUrls tokens (selectedSourceFieldId u) recordId :: calls).
Proof.
  intros F W. split; [constructor; [now split | exact F]|].
  left. exact W.
Qed.

Lemma recordInner_written u recordId tokens calls files :
  Forall (innerCall u recordId) calls -> writes calls = [] ->
  (0 <? List.length files)%nat = true ->
  Forall (fun x => File.type x = "image/jpeg") files ->
  List.length files <= List.length (transformCalls calls) ->
  recordInner u recordId
    (EvGetCellAttachmentUrls tokens (selectedSourceFieldId u) recordId
     :: calls ++ [EvSetValue (selectedTargetFieldId u) recordId files]).
Proof.
  intros F W N J L. split.
  - constructor; [now split|]. apply Forall_app. split; [exact F|].
    constructor; [|constructor]. repeat split; [|exact J].
    intros ->. discriminate.
  - right.
    exists (EvGetCellAttachmentUrls tokens (selectedSourceFieldId u) recordId
            :: calls), files.
    split; [reflexivity|]. split; [exact W | exact L].
Qed.

Lemma processRecord_calls w u total i recordId m :
  post (processRecord w u total i recordId) m
    (fun r m' =>
       r = Val tt
       /\ exists inner,
            trace m' = trace m ++ EvSetProgress (mkProgress (i + 1) total)
                         :: EvGetValue (selectedSourceFieldId u) recordId :: inner
            /\ recordInner u recordId inner
            /\ successCount (locals m')
               <= successCount (locals m) + List.length (writes inner)).
Proof.
  unfold processRecord, recordBody, submitProcessedFiles. mrun'.
  all: split; [reflexivity|].
  all: try match goal with
           | T : trace _ = _ ++ attachmentCalls ?w ?tw ?th ?urls ?h 0 ?l |- _ =>
               destruct (attachmentCalls_inner w u urls recordId l h 0) as [FI WI];
               remember (attachmentCalls w tw th urls h 0 l) as calls eqn:Ecalls;
               clear Ecalls; rewrite T
           end.
  all: rewrite <- ?app_assoc; cbn [app].
  all: eexists; split; [reflexivity|].
  all: unfold countSuccess, countSkip, countFail, withProcessedFiles;
    cbn [successCount].
  all: try (split; [apply recordInner_nil | lia]).
  all: try (split; [apply recordInner_urls; [constructor | reflexivity] | lia]).
  all: try (split; [apply recordInner_urls; assumption | lia]).
  all: (split;
        [ apply recordInner_written; try assumption;
          match goal with
          | H : processedFiles _ = [] ++ _, H1 : Forall _ _ |- _ =>
              rewrite H; cbn [app]; eapply Forall_impl; [|exact H1];
              intros f (a' & _ & _ & Ht & _); exact Ht
          end
        | cbn [writes flat_map]; rewrite ?length_app;
          change (flat_map _ ?l) with (writes l);
          rewrite writes_app, length_app; cbn [writes flat_map app List.length];
          lia ]).
Qed.

(** ** The cells read and written (lines 155-235) *)

Lemma recordsLoop_calls w u total recordIds : forall i m,
  post (recordsLoop w u total i recordIds) m
    (fun r m' =>
       r = Val tt
       /\ exists evs,
            trace m' = trace m ++ evs
            /\ loopCalls u total i recordIds evs
            /\ successCount (locals m')
               <= successCount (locals m) + List.length (writes evs)).
Proof.
  induction recordIds as [|recordId rest IH]; intros i m; simpl.
  - apply post_ret. split; [reflexivity|]. exists [].
    rewrite app_nil_r. split; [reflexivity|]. split; [constructor | simpl; lia].
  - apply post_bind.
    eapply post_mono; [apply processRecord_calls|].
    intros r m1 (-> & inner & T1 & I1 & S1). cbv beta iota.
    eapply post_mono; [apply IH|].
    intros r m2 (-> & evs & T2 & L2 & S2). split; [reflexivity|].
    eexists. split; [|split; [exact (loop_record _ _ _ _ _ _ _ I1 L2)|]].
    + rewrite T2, T1, <- app_assoc. reflexivity.
    + cbn [writes flat_map app]. change (flat_map _ ?l) with (writes l).
      rewrite writes_app, length_app. lia.
Qed.

Lemma innerCall_discipline u recordId recordIds e :
  In recordId recordIds -> innerCall u recordId e ->
  cellDiscipline u recordIds e.
Proof.
  intros Hin. destruct e; simpl; try tauto.
  - intros [-> ->]. now split.
  - intros (-> & -> & N & J). auto.
Qed.

Lemma loopCalls_discipline u total i recordIds evs :
  loopCalls u total i recordIds evs ->
  forall all, incl recordIds all -> Forall (cellDiscipline u all) evs.
Proof.
  induction 1 as [i|i recordId rest inner evs [F _] _ IH]; intros all Hall;
    [constructor|].
  assert (Hin : In recordId all) by (apply Hall; now left).
  constructor; [exact I|]. constructor; [now split|].
  apply Forall_app. split.
  - eapply Forall_impl; [|exact F]. intros e. now apply innerCall_discipline.
  - apply IH. intros x Hx. apply Hall. now right.
Qed.

Lemma loopCalls_writes u total i recordIds evs :
  loopCalls u total i recordIds evs ->
  Subsequence (writes evs) (map (pair (selectedTargetFieldId u)) recordIds).
Proof.
  induction 1 as [i|i recordId rest inner evs [_ W] _ IH]; [constructor|].
  cbn [writes flat_map app map]. change (flat_map _ ?l) with (writes l).
  rewrite writes_app. destruct W as [->|(pre & files & -> & Wp & _)].
  - now apply sub_skip.
  - rewrite writes_app, Wp. cbn [writes flat_map app]. now apply sub_take.
Qed.

Lemma covered_pre u recordId pre :
  Forall (innerCall u recordId) pre -> writes pre = [] ->
  forall read n tail,
    writesAreCovered read n (pre ++ tail)
    = writesAreCovered read (n + List.length (transformCalls pre)) tail.
Proof.
  induction 1 as [|e pre He _ IH]; intros W read n tail.
  - simpl. now rewrite Nat.add_0_r.
  - destruct e; simpl in He; try contradiction.
    + apply IH. exact W.
    + apply IH. exact W.
    + cbn [app writesAreCovered transformCalls flat_map List.length].
      change (flat_map _ ?l) with (transformCalls l).
      rewrite IH by exact W. f_equal. lia.
    + discriminate W.
Qed.

Lemma loopCalls_covered u total i recordIds evs :
  loopCalls u total i recordIds evs ->
  forall rest,
    (forall read n, writesAreCovered read n rest = true) ->
    forall read n, writesAreCovered read n (evs ++ rest) = true.
Proof.
  induction 1 as [i|i recordId rest0 inner evs [F W] _ IH];
    intros rest Hrest read n; [apply Hrest|].
  cbn [app writesAreCovered]. rewrite <- app_assoc.
  destruct W as [W|(pre & files & -> & Wp & L)].
  - rewrite (covered_pre u recordId inner F W). now apply IH.
  - apply Forall_app in F. destruct F as [Fp Fw].
    rewrite <- app_assoc. rewrite (covered_pre u recordId pre Fp Wp).
    cbn [app writesAreCovered]. rewrite String.eqb_refl.
    apply Forall_inv in Fw. simpl in Fw. destruct Fw as (_ & _ & N & _).
    destruct files as [|f files]; [now contradiction N|].
    rewrite IH by exact Hrest.
    change (1 <=? List.length (f :: files))%nat with true.
    cbn [andb]. rewrite andb_true_r. apply Nat.leb_le. exact L.
Qed.

Lemma preambleEvent_quiet evs :
  Forall preambleEvent evs ->
  (forall u, Forall (cellDiscipline u []) evs)
  /\ writes evs = []
  /\ (forall read n, writesAreCovered read n evs = true).
Proof.
  induction 1 as [|e evs He _ (D & W & C)].
  - split; [intros u; constructor|]. split; reflexivity.
  - destruct e; simpl in He; try contradiction.
    all: split; [intros u; constructor; [exact I | apply D]|].
    all: split; [exact W|].
    all: intros read n; apply C.
Qed.

Lemma handleConvert_cells :
  forall (w : World) (m : Machine),
    let m' := snd (handleConvert w m) in
    let recordIds := recordsOf (preamble w m) in
    exists evs,
      trace m' = trace m ++ evs
      /\ Forall (cellDiscipline (ui m) recordIds) evs
      /\ Subsequence (writes evs)
           (map (pair (selectedTargetFieldId (ui m))) recordIds)
      /\ writesAreCovered None 0 evs = true
      /\ match preamble w m with
         | Ready _ => successCount (locals m') <= List.length (writes evs)
         | _ => writes evs = []
         end.
Proof.
  intros w m m' recordIds. subst m' recordIds.
  rewrite handleConvert_cases. cbn [snd].
  destruct (preamble w m) as [|e pevs| |rids] eqn:P; cbn [recordsOf map].
  - exists []. rewrite app_nil_r. repeat split; constructor.
  - exists (pevs ++ [EvSetProgress (mkProgress 0 0)]).
    assert (Q : Forall preambleEvent (pevs ++ [EvSetProgress (mkProgress 0 0)])).
    { apply Forall_app. split; [exact (preamble_HostFailed w m e pevs P)|].
      repeat constructor. }
    destruct (preambleEvent_quiet _ Q) as (D & W & C).
    split; [reflexivity|]. split; [apply D|]. rewrite W, C.
    repeat split; constructor.
  - eexists. split; [reflexivity|]. repeat split; repeat constructor.
  - pose proof (recordsLoop_calls w (ui m) (List.length rids) rids 0
                  (atLoop m rids)) as (_ & evs & T & L & S).
    unfold completed. cbn [trace locals]. rewrite T.
    unfold atLoop at 1. cbn [trace]. rewrite <- !app_assoc.
    eexists. split; [reflexivity|].
    cbn [app writes flat_map writesAreCovered].
    change (flat_map _ ?l) with (writes l). rewrite writes_app.
    cbn [writes flat_map]. rewrite app_nil_r.
    split; [|split; [exact (loopCalls_writes _ _ _ _ _ L)|split]].
    + repeat (constructor; [exact I|]).
      apply Forall_app. split; [|repeat constructor].
      apply (loopCalls_discipline _ _ _ _ _ L). apply incl_refl.
    + apply (loopCalls_covered _ _ _ _ _ L). reflexivity.
    + exact S.
Qed.

(** Which cells a run touches, whatever the host answers: it reads
    only cells of the source field and writes only cells of the target
    field, of records of the table; a write carries at least one file
    and only JPEG files; the records written are some of the records of
    the table, each at most once and in the order of the table; every
    write goes to the record read last and carries no more files than
    transforms were called for that record, so no file of an earlier
    record is written again; the records counted as successes are no
    more than the writes; a run that does not get to its loop writes
    nothing. *)
Theorem cells_of_a_run :
  forall (w : World) (m : Machine),
    let m' := snd (handleConvert w m) in
    let recordIds := recordsOf (preamble w m) in
    exists evs,
      trace m' = trace m ++ evs
      /\ Forall (cellDiscipline (ui m) recordIds) evs
      /\ Subsequence (writes evs)
           (map (pair (selectedTargetFieldId (ui m))) recordIds)
      /\ writesAreCovered None 0 evs = true
      /\ match preamble w m with
         | Ready _ => successCount (locals m') <= List.length (writes evs)
         | _ => writes evs = []
         end.
Proof. exact handleConvert_cells. Qed.

Lemma fetchCalls_attachmentCalls w tw th urls l : forall h j,
  fetchCalls (attachmentCalls w tw th urls h j l) = imageUrls urls j l.
Proof.
  induction l as [|a l IH]; intros h j; cbn [attachmentCalls imageUrls];
    [reflexivity|].
  cbv zeta. rewrite fetchCalls_app, IH. f_equal.
  unfold attachmentCall. destruct (isImage (fileNameOf a)); [|reflexivity].
  now destruct (downloaded w h (nth_error urls j)).
Qed.

Lemma transforms_le_fetches w tw th urls l : forall h j,
  List.length (transformCalls (attachmentCalls w tw th urls h j l))
  <= List.length (fetchCalls (attachmentCalls w tw th urls h j l)).
Proof.
  induction l as [|a l IH]; intros h j; cbn [attachmentCalls];
    [apply Nat.le_refl|].
  cbv zeta. rewrite fetchCalls_app, transformCalls_app, !length_app.
  apply Nat.add_le_mono; [|apply IH].
  unfold attachmentCall. destruct (isImage (fileNameOf a)); [|apply Nat.le_refl].
  destruct (downloaded w h (nth_error urls j)); simpl; lia.
Qed.

Lemma imageUrls_length urls l : forall j,
  List.length (imageUrls urls j l) <= List.length l.
Proof.
  induction l as [|a l IH]; intros j; cbn [imageUrls]; [apply Nat.le_refl|].
  rewrite length_app. specialize (IH (S j)).
  destruct (isImage (fileNameOf a)); simpl; lia.
Qed.

(** The calls of the inner loop, whatever fails in it: every attachment
    with the name of an image is downloaded exactly once, in the order
    of the list, from the URL at its own index ([undefined] where the
    host returned fewer URLs than attachments); an attachment with
    another name is not downloaded; a transform is called only after a
    download that was answered ok with a body, on that body, at most
    once per download; and no more files are kept for the record than
    transforms were called. *)
Theorem downloads_of_a_record :
  forall (w : World) (tw th : float) (urls : list string) (j : nat)
         (l : list Attachment.t) (m : Machine),
    let m' := snd (attachmentsLoop w tw th urls j l m) in
    let evs := attachmentCalls w tw th urls (trace m) j l in
    trace m' = trace m ++ evs
    /\ fetchCalls evs = imageUrls urls j l
    /\ List.length (transformCalls evs) <= List.length (fetchCalls evs)
    /\ List.length (fetchCalls evs) <= List.length l
    /\ List.length (processedFiles (locals m'))
       <= List.length (processedFiles (locals m))
          + List.length (transformCalls evs).
Proof.
  intros w tw th urls j l m m' evs. subst m' evs.
  destruct (attachmentsLoop_calls w tw th urls l j m) as (_ & T & F).
  split; [exact T|]. split; [apply fetchCalls_attachmentCalls|].
  split; [apply transforms_le_fetches|]. split; [|exact F].
  rewrite fetchCalls_attachmentCalls. apply imageUrls_length.
Qed.

(* ================================================================== *)
(** * 22. More on file names *)
(* ================================================================== *)

Local Open Scope string_scope.

Lemma string_app_assoc (a b c : string) : (a ++ b) ++ c = a ++ (b ++ c).
Proof. induction a as [|x a IH]; simpl; [reflexivity | now rewrite IH]. Qed.

Lemma includes_app_r (c : ascii) (a b : string) :
  JsString.includes c b = true -> JsString.includes c (a ++ b) = true.
Proof.
  intros H. induction a as [|x a IH]; simpl; [exact H|].
  rewrite IH. apply orb_true_r.
Qed.

Lemma lastIndexOf_app (c : ascii) (b ext : string) :
  JsString.includes c ext = false ->
  JsString.lastIndexOf c (b ++ String c ext) = Z.of_nat (String.length b).
Proof.
  intros H. induction b as [|x b IH].
  - simpl. rewrite <- (lastIndexOf_includes c ext) in H.
    rewrite H, Ascii.eqb_refl. reflexivity.
  - cbn [String.append JsString.lastIndexOf String.length]. rewrite IH.
    destruct (Z.leb_spec 0 (Z.of_nat (String.length b))); lia.
Qed.

Lemma substring_prefix (b rest : string) :
  String.substring 0 (String.length b) (b ++ rest) = b.
Proof.
  induction b as [|x b IH]; simpl.
  - now destruct rest.
  - now rewrite IH.
Qed.

Lemma baseName_app_dot (b ext : string) :
  JsString.includes "." ext = false -> baseName (b ++ "." ++ ext) = b.
Proof.
  intros H. unfold baseName.
  change (b ++ "." ++ ext) with (b ++ String "." ext).
  rewrite (includes_app_r "." b (String "." ext)) by reflexivity.
  unfold JsString.substring0. rewrite (lastIndexOf_app "." b ext H).
  rewrite Nat2Z.id. apply substring_prefix.
Qed.

(** Lines 202-204 undo the joining of a base name and an extension: the
    base name of [b.ext] is [b], whatever dots [b] has, for an extension
    without a dot. *)
Theorem baseName_of_joined :
  forall (b ext : string),
    JsString.includes "." ext = false ->
    baseName (b ++ "." ++ ext) = b.
Proof. exact baseName_app_dot. Qed.

Lemma baseName_of_joined_witness :
  baseName ("holiday.2024" ++ "." ++ "png") = "holiday.2024".
Proof. exact (baseName_of_joined "holiday.2024" "png" eq_refl). Defined.

Lemma upper_dot (c : ascii) : JsString.upper c = "."%char -> c = "."%char.
Proof.
  destruct c as [[] [] [] [] [] [] [] []]; vm_compute; congruence.
Qed.

(** A name that passes the image test has a dot. *)
Lemma isImage_includes_dot (fileName : string) :
  isImage fileName = true -> JsString.includes "." fileName = true.
Proof.
  intros H. apply isImage_iff in H.
  destruct H as (pre & suf & ext & -> & _ & U).
  apply includes_app_r.
  destruct suf as [|c suf]; [discriminate|].
  simpl in U. injection U as U _. apply upper_dot in U. subst c.
  reflexivity.
Qed.

(** The names the pipeline gives are names the pipeline accepts: an
    output file is an image by line 184, its base name is the base name
    of its source followed by the size, a second pass appends the size
    once more, and the name of an image always has a dot, so that the
    alternative of line 204 is never taken for a file that gets this
    far. *)
Theorem output_names_are_image_names :
  forall (str : float -> string) (fileName : string) (tw th : float),
    isImage (newFileName str fileName tw th) = true
    /\ baseName (newFileName str fileName tw th)
       = baseName fileName ++ "_" ++ str tw ++ "x" ++ str th
    /\ newFileName str (newFileName str fileName tw th) tw th
       = baseName fileName ++ "_" ++ str tw ++ "x" ++ str th
           ++ "_" ++ str tw ++ "x" ++ str th ++ ".jpg"
    /\ (isImage fileName = true ->
        exists ext,
          fileName = baseName fileName ++ "." ++ ext
          /\ JsString.includes "." ext = false).
Proof.
  intros str fileName tw th.
  assert (E : newFileName str fileName tw th
              = (baseName fileName ++ "_" ++ str tw ++ "x" ++ str th)
                  ++ "." ++ "jpg").
  { unfold newFileName. now rewrite !string_app_assoc. }
  assert (B : baseName (newFileName str fileName tw th)
              = baseName fileName ++ "_" ++ str tw ++ "x" ++ str th).
  { rewrite E. now apply baseName_app_dot. }
  split; [|split; [exact B|split]].
  - apply isImage_iff. rewrite E.
    exists (baseName fileName ++ "_" ++ str tw ++ "x" ++ str th), ".jpg", "jpg".
    split; [reflexivity|]. split; [now left | reflexivity].
  - unfold newFileName at 1. rewrite B. now rewrite !string_app_assoc.
  - intros H. apply baseName_dot. now apply isImage_includes_dot.
Qed.

Lemma output_names_are_image_names_witness :
  exists ext,
    "photo.JPG" = baseName "photo.JPG" ++ "." ++ ext
    /\ JsString.includes "." ext = false.
Proof.
  exact (proj2 (proj2 (proj2 (output_names_are_image_names
                                (fun _ => "") "photo.JPG" 100%float 100%float)))
               eq_refl).
Defined.

Local Open Scope list_scope.

(* ================================================================== *)
(** * 23. The crop rectangle read exactly *)
(* ================================================================== *)

Lemma Qdiv_pos (a b : Q) : (0 < a)%Q -> (0 < b)%Q -> (0 < a / b)%Q.
Proof.
  intros Ha Hb. apply Qlt_shift_div_l; [exact Hb|]. now rewrite Qmult_0_l.
Qed.

Lemma Qdiv_cancel (a b : Q) : (0 < b)%Q -> (a / b * b == a)%Q.
Proof.
  intros Hb. field. intros Z0. rewrite Z0 in Hb. discriminate.
Qed.

(** The formulas of lines 31-45, evaluated over the rationals, for an
    image and a target of positive size: the rectangle lies inside the
    image, is centred in it, spans the image in one direction, and has
    the aspect ratio of the target. *)
Theorem cropRect_exact_geometry :
  forall iw ih tw th : Q,
    (0 < iw)%Q -> (0 < ih)%Q -> (0 < tw)%Q -> (0 < th)%Q ->
    let r := cropRect iw ih tw th in
    (0 <= sourceX r)%Q /\ (0 <= sourceY r)%Q
    /\ (0 < sourceWidth r)%Q /\ (0 < sourceHeight r)%Q
    /\ (sourceX r + sourceWidth r <= iw)%Q
    /\ (sourceY r + sourceHeight r <= ih)%Q
    /\ (2 * sourceX r + sourceWidth r == iw)%Q
    /\ (2 * sourceY r + sourceHeight r == ih)%Q
    /\ (sourceWidth r == iw \/ sourceHeight r == ih)%Q
    /\ (sourceWidth r * th == sourceHeight r * tw)%Q.
Proof.
  intros iw ih tw th Hiw Hih Htw Hth r.
  assert (Htr : (0 < tw / th)%Q) by now apply Qdiv_pos.
  assert (Nth : ~ (th == 0)%Q) by (intros Z0; rewrite Z0 in Hth; discriminate).
  assert (Ntw : ~ (tw == 0)%Q) by (intros Z0; rewrite Z0 in Htw; discriminate).
  assert (Nih : ~ (ih == 0)%Q) by (intros Z0; rewrite Z0 in Hih; discriminate).
  subst r. unfold cropRect, targetRatio, currentRatio.
  cbn [n_gt n_div Arith_Q].
  destruct (Qcompare (iw / ih) (tw / th)) eqn:C;
    cbn [sourceX sourceY sourceWidth sourceHeight n_zero n_two n_sub n_mul
         n_div Arith_Q].
  - (* equal ratios: full width *)
    apply Qeq_alt in C.
    assert (S : (iw / (tw / th) == ih)%Q).
    { rewrite <- C. field. split; [exact Nih|].
      intros Z0. rewrite Z0 in Hiw. discriminate. }
    rewrite S.
    assert (E : (iw == tw / th * ih)%Q) by (rewrite <- C; field; exact Nih).
    assert (H2 : ((ih - ih) / 2 == (ih - ih) * (1 # 2))%Q) by reflexivity.
    repeat split; try (rewrite H2; lra); try lra; try (now left).
    rewrite E at 1. field. exact Nth.
  - (* the image is relatively taller: full width *)
    apply Qlt_alt in C.
    assert (L : (iw / (tw / th) <= ih)%Q).
    { apply Qle_shift_div_r; [exact Htr|].
      apply Qlt_le_weak.
      setoid_replace iw with (iw / ih * ih)%Q at 1
        by (symmetry; apply Qdiv_cancel; exact Hih).
      rewrite (Qmult_comm ih). apply Qmult_lt_compat_r; assumption. }
    assert (P : (0 < iw / (tw / th))%Q) by now apply Qdiv_pos.
    assert (H2 : ((ih - iw / (tw / th)) / 2 == (ih - iw / (tw / th)) * (1 # 2))%Q)
      by reflexivity.
    repeat split; try (rewrite H2; lra); try lra; try (now left).
    field. split; assumption.
  - (* the image is relatively wider: full height *)
    apply Qgt_alt in C.
    assert (L : (ih * (tw / th) < iw)%Q).
    { setoid_replace iw with (iw / ih * ih)%Q at 1
        by (symmetry; apply Qdiv_cancel; exact Hih).
      rewrite (Qmult_comm ih). apply Qmult_lt_compat_r; assumption. }
    assert (P : (0 < ih * (tw / th))%Q).
    { setoid_replace 0%Q with (0 * (tw / th))%Q by ring.
      apply Qmult_lt_compat_r; assumption. }
    assert (H2 : ((iw - ih * (tw / th)) / 2 == (iw - ih * (tw / th)) * (1 # 2))%Q)
      by reflexivity.
    repeat split; try (rewrite H2; lra); try lra; try (now right).
    field. exact Nth.
Qed.

(** A 400 x 100 image for a 100 x 100 target. *)
Lemma cropRect_exact_geometry_witness :
  (sourceX (cropRect (400 # 1)%Q (100 # 1)%Q (100 # 1)%Q (100 # 1)%Q)
   + sourceWidth (cropRect (400 # 1)%Q (100 # 1)%Q (100 # 1)%Q (100 # 1)%Q)
   <= 400 # 1)%Q.
Proof.
  exact (proj1 (proj2 (proj2 (proj2 (proj2
           (cropRect_exact_geometry (400 # 1)%Q (100 # 1)%Q (100 # 1)%Q (100 # 1)%Q
              eq_refl eq_refl eq_refl eq_refl)))))).
Defined.

(* ================================================================== *)
(** * 24. Loading the table *)
(* ================================================================== *)

Lemma fetchData_twice ids u : fetchData ids (fetchData ids u) = fetchData ids u.
Proof.
  destruct ids as [|first ids]; [reflexivity|]. destruct u as [c s p l src tgt tw th].
  unfold fetchData.
  cbn [selectedSourceFieldId selectedTargetFieldId].
  destruct src, tgt, first; reflexivity.
Qed.

(** Loading again changes nothing when the host answers as before.  The
    effect of lines 89-121 depends on the two selections, which it sets
    itself, so React runs it again after the first load; the second
    pass, and every selection change reported by the host after it,
    leaves the component as it is. *)
Theorem fetchData_settles :
  forall (h : Host) (a : App) (tableId : option string),
    fetchDataEffect h (fetchDataEffect h a) = fetchDataEffect h a
    /\ onSelectionChange tableId h (fetchDataEffect h a) = fetchDataEffect h a.
Proof.
  intros h a tableId.
  assert (E : fetchDataEffect h (fetchDataEffect h a) = fetchDataEffect h a).
  { destruct a as [[tn rc af] u].
    destruct h as [[[]|e1] [n|e2] [rl|e3] [fields|e4]]; try reflexivity.
    unfold fetchDataEffect, setTableName, setRecordCount, setAttachmentFields.
    cbn [activeTable tableGetName tableGetRecordIdList
         tableGetFieldMetaListByType appInfo appUI tableName recordCount
         attachmentFields].
    now rewrite fetchData_twice. }
  split; [exact E|].
  destruct tableId as [[|c t]|]; [reflexivity | exact E | reflexivity].
Qed.


(** The first load.  When the host lists no attachment field, or fails,
    nothing is selected, the only option of the two selects is the
    placeholder and the button is disabled.  Otherwise the first field
    listed is selected as the source and as the target, and it is the
    first option of both selects. *)
Theorem first_load :
  forall (h : Host),
    let a' := fetchDataEffect h initialApp in
    let u' := appUI a' in
    match attachmentFields (appInfo a') with
    | [] =>
        selectedSourceFieldId u' = "" /\ selectedTargetFieldId u' = ""
        /\ convertDisabled u' = true
        /\ fieldOptions a' = [("", "未找到附件字段")]
    | f :: _ =>
        selectedSourceFieldId u' = FieldMeta.id f
        /\ selectedTargetFieldId u' = FieldMeta.id f
        /\ convertDisabled u' = isEmpty (FieldMeta.id f)
        /\ hd_error (fieldOptions a') = Some (FieldMeta.id f, FieldMeta.name f)
    end.
Proof.
  intros [[[]|e1] [n|e2] [rl|e3] [[|f fields]|e4]]; cbn; auto.
  destruct (FieldMeta.id f); cbn; auto.
Qed.

(** ** A run on the selection the load made *)

Lemma handleConvert_selection w m :
  selectedSourceFieldId (ui (snd (handleConvert w m)))
  = selectedSourceFieldId (ui m)
  /\ selectedTargetFieldId (ui (snd (handleConvert w m)))
     = selectedTargetFieldId (ui m).
Proof.
  rewrite handleConvert_cases. cbn [snd].
  destruct (preamble w m) as [|e evs| |recordIds]; try (split; reflexivity).
  unfold completed. cbn [ui].
  destruct (lf_ui _ _ _ _ _ _ (ready_loop w m recordIds)) as [lg U].
  rewrite U. split; reflexivity.
Qed.

Lemma noCell_onField f e : noCell e -> onField f e.
Proof. destruct e; simpl; tauto. Qed.

Lemma dispatch_defaultSelection w a m :
  isFieldChange a = false -> defaultSelection m ->
  defaultSelection (dispatch w a m).
Proof.
  intros Ha [E T]. destruct a; try discriminate Ha; unfold dispatch; cbv zeta.
  - unfold defaultSelection, fetchData. cbn [ui trace].
    destruct attachFields as [|first ids]; [now split|].
    rewrite <- E.
    destruct (isEmpty (selectedSourceFieldId (ui m))) eqn:S;
      [|rewrite S; now split].
    cbn [setSelectedSourceFieldId setSelectedTargetFieldId
         selectedSourceFieldId selectedTargetFieldId].
    split; [reflexivity|].
    destruct (isEmpty first); [exact T|].
    eapply Forall_impl; [|exact T]. intros e. apply noCell_onField.
  - split; [exact E | exact T].
  - split; [exact E | exact T].
  - destruct (handleConvert_selection w m) as [Ss St].
    destruct (handleConvert_cells w m) as (evs & Tr & D & _).
    unfold defaultSelection. rewrite Ss, St, Tr.
    split; [exact E|]. apply Forall_app. split; [exact T|].
    destruct (isEmpty (selectedSourceFieldId (ui m))) eqn:S.
    + assert (P : preamble w m = NoSelection).
      { unfold preamble. now rewrite S. }
      rewrite P in D. eapply Forall_impl; [|exact D].
      intros e. destruct e; simpl; tauto.
    + eapply Forall_impl; [|exact D].
      intros e. destruct e; simpl; try tauto.
      intros (-> & _). symmetry. exact E.
Qed.

Lemma session_defaultSelection w actions : forall m,
  forallb (fun a => negb (isFieldChange a)) actions = true ->
  defaultSelection m ->
  defaultSelection (fold_left (fun m a => dispatch w a m) actions m).
Proof.
  induction actions as [|a actions IH]; intros m Ha Hm; simpl; [exact Hm|].
  simpl in Ha. apply andb_prop in Ha. destruct Ha as [Ha1 Ha2].
  apply IH; [exact Ha2|]. apply dispatch_defaultSelection; [|exact Hm].
  now apply negb_true_iff.
Qed.

(** As long as no field is chosen by hand the source and the target are
    the same field, the one the load selected: every cell a run reads
    and every cell it writes is in that field, so the resized images
    replace the originals. *)
Theorem untouched_selection_overwrites_the_source :
  forall (w : World) (actions : list Action),
    forallb (fun a => negb (isFieldChange a)) actions = true ->
    let m := session w actions in
    selectedTargetFieldId (ui m) = selectedSourceFieldId (ui m)
    /\ Forall (onField (selectedSourceFieldId (ui m))) (trace m).
Proof.
  intros w actions Ha m. subst m.
  destruct (session_defaultSelection w actions initialMachine Ha) as [E T].
  { split; [reflexivity | constructor]. }
  fold (session w actions) in E, T.
  split; [now symmetry|].
  destruct (isEmpty (selectedSourceFieldId (ui (session w actions))));
    [|exact T].
  eapply Forall_impl; [|exact T]. intros e. apply noCell_onField.
Qed.

(** The load finds one field, then the button is clicked: the
    photograph of the first record is read from and written to that
    field. *)
Lemma untouched_selection_overwrites_the_source_witness :
  In (EvGetValue "fldA" "r1")
     (trace (session threeRecords [FetchData ["fldA"]; ClickConvert]))
  /\ (exists files,
        In (EvSetValue "fldA" "r1" files)
           (trace (session threeRecords [FetchData ["fldA"]; ClickConvert])))
  /\ Forall (onField "fldA")
       (trace (session threeRecords [FetchData ["fldA"]; ClickConvert])).
Proof.
  split; [vm_compute; tauto|]. split.
  - eexists. vm_compute. do 10 right. left. reflexivity.
  - exact (proj2 (untouched_selection_overwrites_the_source threeRecords
                    [FetchData ["fldA"]; ClickConvert] eq_refl)).
Defined.
